(** * bsfh.sedmodel: theta vectors, priors, reflective bounds, posterior gate

    A shallow embedding of [ThetaParameters] and of the prior gate of
    [SedModel.lnprob] from [bsfh/sedmodel.py].

    - numpy float64 scalars are [Np.value]: the IEEE special values
      (+inf, -inf, nan) together with exact rational arithmetic on the
      finite values. Rounding and overflow are not part of [Np.value];
      where they decide whether [check_constrained] returns, the loop is
      run on binary64 values in the module [F64].
    - numpy arrays handed in by the caller live in a [heap] and are
      referred to by location, so that writes through a slice view are
      visible to the caller as they are in Python.
    - the Python 2 dictionary [theta_desc] is an association list whose
      order is the (arbitrary but fixed) iteration order of the dictionary.
    - exceptions are values of [exn]; methods run in a state-and-exception
      monad [M] over [state].
    - of [SedModel], [add_obs], [mean_model], [sky], [calibration] and
      [lnprob_grad] are embedded as well; what the population-synthesis
      object [sps] returns, [np.median] and the floating-point likelihood
      expressions are parameters of those definitions. *)

From Stdlib Require Import QArith Qround Lqa Floats.
From stdpp Require Import gmap strings list fin_maps.

Set Default Proof Using "Type".

(* ===================================================================== *)
(** ** numpy scalars and the array primitives used by the module *)
(* ===================================================================== *)

Module Np.

Inductive value : Type :=
| Fin (q : Q)
| PosInf
| NegInf
| NaN.

Definition zero : value := Fin 0.
Definition one : value := Fin 1.

Definition Qlt_bool (x y : Q) : bool := negb (Qle_bool y x).

(** [np.isfinite] *)
Definition isfinite (v : value) : bool :=
  match v with Fin _ => true | _ => false end.

Definition opp (v : value) : value :=
  match v with
  | Fin q => Fin (- q)
  | PosInf => NegInf
  | NegInf => PosInf
  | NaN => NaN
  end.

Definition add (a b : value) : value :=
  match a, b with
  | NaN, _ | _, NaN => NaN
  | Fin x, Fin y => Fin (x + y)
  | PosInf, NegInf | NegInf, PosInf => NaN
  | PosInf, _ | _, PosInf => PosInf
  | NegInf, _ | _, NegInf => NegInf
  end.

Definition sub (a b : value) : value := add a (opp b).

Definition sign_of (v : value) : option comparison :=
  match v with
  | Fin q => Some (Qnum q ?= 0)%Z
  | PosInf => Some Gt
  | NegInf => Some Lt
  | NaN => None
  end.

Definition mul (a b : value) : value :=
  match a, b with
  | Fin x, Fin y => Fin (x * y)
  | _, _ =>
      match sign_of a, sign_of b with
      | Some Gt, Some Gt | Some Lt, Some Lt => PosInf
      | Some Gt, Some Lt | Some Lt, Some Gt => NegInf
      | _, _ => NaN
      end
  end.

(** [a > b]; every comparison with nan is false. *)
Definition gt (a b : value) : bool :=
  match a, b with
  | Fin x, Fin y => Qlt_bool y x
  | PosInf, Fin _ | PosInf, NegInf | Fin _, NegInf => true
  | _, _ => false
  end.

(** [a < b] *)
Definition lt (a b : value) : bool := gt b a.

(** [np.sum] of a one-dimensional array. *)
Definition sum (a : list value) : value := foldl add zero a.

(** [np.any] of a boolean array. *)
Definition any (m : list bool) : bool := existsb id m.

(** [np.zeros(n)], [np.zeros_like(a)], [np.ones_like(a)] *)
Definition zeros (n : nat) : list value := replicate n zero.
Definition zeros_like (a : list value) : list value := zeros (length a).
Definition ones_like (a : list value) : list value := replicate (length a) one.

(** The view [a[start:stop]] for non-negative [start], [stop]. *)
Definition slice {A} (start stop : nat) (a : list A) : list A :=
  take (stop - start) (drop start a).

(** The array after [a[start:stop][mask] = f(a[start:stop][mask])],
    where [mask] has the length of the slice. *)
Definition update_masked {A} (start stop : nat) (mask : list bool)
    (f : A → A) (a : list A) : list A :=
  take start a
    ++ zip_with (λ (m : bool) x, if m then f x else x) mask (slice start stop a)
    ++ drop (start `max` stop) a.

End Np.

Import Np.

(* ===================================================================== *)
(** ** Exceptions, heap and the method monad *)
(* ===================================================================== *)

Inductive exn : Type :=
| AssertionError
| KeyError
| ValueError
| IndexError
| TypeError.

Inductive result (A : Type) : Type :=
| Ok (a : A)
| Raise (e : exn).
Arguments Ok {A} a.
Arguments Raise {A} e.

(** A keyword argument of a prior: a scalar or a one-dimensional array. *)
Inductive arg : Type :=
| Scalar (v : value)
| Vector (vs : list value).

(** [np.size] *)
Definition np_size (a : arg) : nat :=
  match a with Scalar _ => 1 | Vector vs => length vs end.

(** [a[k]]: a scalar cannot be indexed. *)
Definition getitem (a : arg) (k : nat) : result value :=
  match a with
  | Scalar _ => Raise IndexError
  | Vector vs => match vs !! k with Some x => Ok x | None => Raise IndexError end
  end.

(** One entry [v] of [theta_desc]. The offsets ['i0'] and ['N'] are
    non-negative; the callables and the reflection bounds may be missing
    from the dictionary. *)
Record block : Type := Block {
  i0 : nat;
  N : nat;
  prior_function : option (list value → gmap string arg → list value);
  prior_gradient_function : option (list value → gmap string arg → list value);
  prior_args : gmap string arg;
  upper : option value;
  lower : option value;
}.

Definition loc := positive.

Record ThetaParameters : Type := Self {
  theta_desc : list (string * block);
  params : gmap string (list value);
  ndim : nat;
}.

Record state : Type := State {
  heap : gmap loc (list value);
  self : ThetaParameters;
  model_calls : nat;
}.

Definition M (A : Type) : Type := state → result A * state.

Definition ret {A} (a : A) : M A := λ s, (Ok a, s).
Definition raise {A} (e : exn) : M A := λ s, (Raise e, s).
Definition bind {A B} (m : M A) (k : A → M B) : M B :=
  λ s, match m s with
       | (Ok a, s') => k a s'
       | (Raise e, s') => (Raise e, s')
       end.

Declare Scope py_scope.
Delimit Scope py_scope with py.
Notation "x <- m ;; k" := (bind m (λ x, k))
  (at level 100, m at next level, right associativity) : py_scope.
Notation "m ;; k" := (bind m (λ _, k))
  (at level 100, right associativity) : py_scope.
Local Open Scope py_scope.

Definition lift {A} (r : result A) : M A := λ s, (r, s).

(** A dictionary or attribute lookup that raises [KeyError] when absent. *)
Definition key {A} (o : option A) : M A :=
  match o with Some a => ret a | None => raise KeyError end.

Definition assert (b : bool) : M unit :=
  if b then ret tt else raise AssertionError.

Definition get_self : M ThetaParameters := λ s, (Ok (self s), s).

(** [self.params[p] = a] *)
Definition set_param (p : string) (a : list value) : M unit :=
  λ s, (Ok tt,
        State (heap s)
              (Self (theta_desc (self s)) (<[p := a]> (params (self s))) (ndim (self s)))
              (model_calls s)).

(** [self.params[p]] *)
Definition get_param (p : string) : M (list value) :=
  me <- get_self ;; key (params me !! p).

(** Reading the array an argument refers to. *)
Definition load (l : loc) : M (list value) :=
  λ s, match heap s !! l with
       | Some a => (Ok a, s)
       | None => (Raise TypeError, s)
       end.

(** Writing an array in place. *)
Definition store (l : loc) (a : list value) : M unit :=
  λ s, (Ok tt, State (<[l := a]> (heap s)) (self s) (model_calls s)).

(** A freshly allocated array. *)
Definition alloc (a : list value) : M loc :=
  λ s, let l := fresh (dom (heap s)) in
       (Ok l, State (<[l := a]> (heap s)) (self s) (model_calls s)).

(** [for x in xs: body(x)] *)
Fixpoint for_each {A} (xs : list A) (body : A → M unit) : M unit :=
  match xs with
  | [] => ret tt
  | x :: xs' => body x ;; for_each xs' body
  end.

(** A loop that carries a local variable [acc]. *)
Fixpoint for_acc {A B} (xs : list A) (acc : B) (body : B → A → M B) : M B :=
  match xs with
  | [] => ret acc
  | x :: xs' => acc' <- body acc x ;; for_acc xs' acc' body
  end.

(** The array after the numpy assignment [dst[start:stop] = src]: [src]
    must have the length of the slice or be a single element, which is
    then broadcast; anything else is a [ValueError]. *)
Definition assign_slice (start stop : nat) (src dst : list value)
    : result (list value) :=
  let m := length (slice start stop dst) in
  if decide (length src = m) then
    Ok (take start dst ++ src ++ drop (start + m) dst)
  else match src with
       | [x] => Ok (take start dst ++ replicate m x ++ drop (start + m) dst)
       | _ => Raise ValueError
       end.

(* ===================================================================== *)
(** ** ThetaParameters *)
(* ===================================================================== *)

(** [__init__] without [theta_init]: the keyword parameters are stored
    as one-dimensional arrays and [ndim] is the sum of the block sizes. *)
Definition desc_ndim (desc : list (string * block)) : nat :=
  foldl (λ n pv, n + N pv.2) 0 desc.

Definition atleast_1d (a : arg) : list value :=
  match a with Scalar v => [v] | Vector vs => vs end.

Definition init (desc : list (string * block)) (kwargs : list (string * arg))
    : ThetaParameters :=
  Self desc
       (foldl (λ ps kv, <[kv.1 := atleast_1d kv.2]> ps) ∅ kwargs)
       (desc_ndim desc).

(** [np.array(theta[start:end])] is a copy, so [self.params] holds values
    of its own and no view of [theta]. *)
Definition set_parameters (theta : loc) : M unit :=
  th <- load theta ;;
  me <- get_self ;;
  assert (bool_decide (length th = ndim me)) ;;
  for_each (theta_desc me) (λ pv,
    let '(p, v) := pv in
    let start := i0 v in
    let stop := i0 v + N v in
    th <- load theta ;;
    set_param p (slice start stop th)).

Definition theta_from_params : M loc :=
  me <- get_self ;;
  theta <- alloc (zeros (ndim me)) ;;
  for_each (theta_desc me) (λ pv,
    let '(p, v) := pv in
    let start := i0 v in
    let stop := i0 v + N v in
    src <- get_param p ;;
    dst <- load theta ;;
    new <- lift (assign_slice start stop src dst) ;;
    store theta new) ;;
  ret theta.

Definition prior_product (theta : loc) : M value :=
  me <- get_self ;;
  for_acc (theta_desc me) zero (λ lnp_prior pv,
    let '(p, v) := pv in
    let start := i0 v in
    let stop := i0 v + N v in
    f <- key (prior_function v) ;;
    th <- load theta ;;
    ret (add lnp_prior (Np.sum (f (slice start stop th) (prior_args v))))).

Definition lnp_prior_grad (theta : loc) : M loc :=
  th <- load theta ;;
  grad <- alloc (zeros_like th) ;;
  me <- get_self ;;
  for_each (theta_desc me) (λ pv,
    let '(p, v) := pv in
    let start := i0 v in
    let stop := i0 v + N v in
    f <- key (prior_gradient_function v) ;;
    th <- load theta ;;
    dst <- load grad ;;
    new <- lift (assign_slice start stop (f (slice start stop th) (prior_args v)) dst) ;;
    store grad new) ;;
  ret grad.

(** The reflection [2 * bound - x] and the momentum flip [s * -1]. *)
Definition reflect (bound x : value) : value := sub (mul (Fin 2) bound) x.
Definition flip (s : value) : value := mul s (Fin (-1)).

(** The two [if] statements of the body of the [for] loop of
    [check_constrained], for one block [v]; the result is the new [oob]. *)
Definition check_upper (theta sign : loc) (v : block) (oob : bool) : M bool :=
  let start := i0 v in
  let stop := i0 v + N v in
  match upper v with
  | Some u =>
      th <- load theta ;;
      let above := (λ x, gt x u) <$> slice start stop th in
      let oob := oob || any above in
      store theta (update_masked start stop above (reflect u) th) ;;
      sg <- load sign ;;
      store sign (update_masked start stop above flip sg) ;;
      ret oob
  | None => ret oob
  end.

Definition check_lower (theta sign : loc) (v : block) (oob : bool) : M bool :=
  let start := i0 v in
  let stop := i0 v + N v in
  match lower v with
  | Some l =>
      th <- load theta ;;
      let below := (λ x, lt x l) <$> slice start stop th in
      let oob := oob || any below in
      store theta (update_masked start stop below (reflect l) th) ;;
      sg <- load sign ;;
      store sign (update_masked start stop below flip sg) ;;
      ret oob
  | None => ret oob
  end.

(** One pass of the [for] loop, started with [oob = False]. *)
Definition scan (theta sign : loc) : M bool :=
  me <- get_self ;;
  for_acc (theta_desc me) false (λ oob pv,
    oob <- check_upper theta sign pv.2 oob ;;
    check_lower theta sign pv.2 oob).

(** The [while oob] loop. Python gives no bound on the number of passes;
    [fuel] is the number of passes the model is allowed to run, and [None]
    says that the loop is still running when they are used up. *)
Fixpoint while_oob (fuel : nat) (theta sign : loc) (s : state)
    : option (result bool * state) :=
  match fuel with
  | O => None
  | S fuel' =>
      match scan theta sign s with
      | (Ok true, s') => while_oob fuel' theta sign s'
      | (r, s') => Some (r, s')
      end
  end.

(** [check_constrained] returns the tuple [(theta, sign, oob)]: the first
    component is the argument itself, the second a fresh array. The two
    [print] statements under [self.verbose] write to the terminal only and
    have no counterpart here. *)
Definition check_constrained (fuel : nat) (theta : loc) (s : state)
    : option (result (loc * loc * bool) * state) :=
  match (th <- load theta ;; alloc (ones_like th)) s with
  | (Ok sign, s1) =>
      match while_oob fuel theta sign s1 with
      | Some (Ok oob, s2) => Some (Ok (theta, sign, oob), s2)
      | Some (Raise e, s2) => Some (Raise e, s2)
      | None => None
      end
  | (Raise e, s1) => Some (Raise e, s1)
  end.

(** [bounds[i] = x] on a Python list. *)
Definition setitem {A} (l : list A) (i : nat) (x : A) : result (list A) :=
  if decide (i < length l) then Ok (<[i := x]> l) else Raise IndexError.

(** [bounds()]: a list of [ndim] pairs, initially all [(0., 0.)]. *)
Definition bounds : M (list (arg * arg)) :=
  me <- get_self ;;
  for_acc (theta_desc me) (replicate (ndim me) (Scalar (Fin 0), Scalar (Fin 0)))
    (λ bounds pv,
      let '(p, v) := pv in
      mini <- key (prior_args v !! "mini") ;;
      let sz := np_size mini in
      if decide (sz = 1) then
        maxi <- key (prior_args v !! "maxi") ;;
        lift (setitem bounds (i0 v) (mini, maxi))
      else
        for_acc (seq 0 sz) bounds (λ bounds k,
          mini <- key (prior_args v !! "mini") ;;
          lo <- lift (getitem mini k) ;;
          maxi <- key (prior_args v !! "maxi") ;;
          hi <- lift (getitem maxi k) ;;
          lift (setitem bounds (i0 v + k)%nat (Scalar lo, Scalar hi)))).

(* ===================================================================== *)
(** ** SedModel.lnprob *)
(* ===================================================================== *)

(** [lnprob] calls [self.model(theta, **extras)], which [sedmodel.py]
    leaves to the host, and then evaluates two Gaussian likelihood terms
    in floating point from the model output, the observations and the
    jitter parameters. Both are parameters here; every call of the model
    is counted in [model_calls]. The two terms are total functions here:
    that the jitter branches of the source name [log] and [pi], which the
    module does not bind, is outside this embedding, which is used for the
    prior gate only. *)
Section SedModel.

Variable model_output : Type.
Variable model : loc → M model_output.
Variable lnp_spec lnp_phot : model_output → ThetaParameters → value.

Definition call_model (theta : loc) : M model_output :=
  λ s, model theta (State (heap s) (self s) (S (model_calls s))).

Definition lnprob (theta : loc) : M value :=
  lnp_prior <- prior_product theta ;;
  if isfinite lnp_prior then
    out <- call_model theta ;;
    me <- get_self ;;
    ret (add (add (lnp_spec out me) (lnp_phot out me)) lnp_prior)
  else
    ret NegInf.

End SedModel.

(* ===================================================================== *)
(** ** Running the model on small inputs *)
(* ===================================================================== *)

(** A block with reflection bounds only, and the state in which the
    caller's array [theta] is at location 1. *)
Definition no_args : gmap string arg := ∅.

Definition bounded (start n : nat) (lo hi : option value) : block :=
  Block start n None None no_args hi lo.

Definition start_state (desc : list (string * block)) (theta : list value) : state :=
  State {[ 1%positive := theta ]} (init desc []) 0.

(** The finite value [n / d]. *)
Definition q (n : Z) (d : positive) : value := Fin (n # d).

(* ===================================================================== *)
(** ** Well-formed descriptors *)
(* ===================================================================== *)

(** The index [i] lies in the slice [[i0, i0 + N)] of the block [v]. *)
Definition owns (v : block) (i : nat) : Prop := i0 v ≤ i < i0 v + N v.

Definition owners (desc : list (string * block)) (i : nat) : list (string * block) :=
  filter (λ pv, owns pv.2 i) desc.

(** The names are those of a dictionary (no name twice), every slice
    lies in [[0, ndim)], and every index below [ndim] has exactly one
    owner. *)
Definition partitions (desc : list (string * block)) : Prop :=
  NoDup desc.*1
  ∧ Forall (λ pv, i0 pv.2 + N pv.2 ≤ desc_ndim desc) desc
  ∧ Forall (λ i, length (owners desc i) = 1) (seq 0 (desc_ndim desc)).

Global Instance partitions_dec desc : Decision (partitions desc).
Proof. unfold partitions, owns. apply _. Defined.

(** [ndim] is what [__init__] computed from the descriptor. *)
Definition constructed (me : ThetaParameters) : Prop :=
  ndim me = desc_ndim (theta_desc me).

(* ===================================================================== *)
(** ** The loops of expansion, contraction, prior and gradient on arrays *)
(* ===================================================================== *)

(** The array [dst] after the block [v] of [src] is written to its slice. *)
Definition fill (src dst : list value) (v : block) : list value :=
  take (i0 v) dst ++ slice (i0 v) (i0 v + N v) src
    ++ drop (i0 v + length (slice (i0 v) (i0 v + N v) dst)) dst.

(** [self.params] after the loop of [set_parameters] on the array [th]. *)
Definition expanded (desc : list (string * block)) (th : list value)
    (ps : gmap string (list value)) : gmap string (list value) :=
  foldl (λ ps pv, <[pv.1 := slice (i0 pv.2) (i0 pv.2 + N pv.2) th]> ps) ps desc.

(** The state with another [self.params], and with another heap. *)
Definition with_params (s : state) (ps : gmap string (list value)) : state :=
  State (heap s) (Self (theta_desc (self s)) ps (ndim (self s))) (model_calls s).

Definition with_heap (s : state) (h : gmap loc (list value)) : state :=
  State h (self s) (model_calls s).

(** Equality of float values up to the representation of rationals. *)
Definition veq (a b : value) : Prop :=
  match a, b with
  | Fin x, Fin y => (x == y)%Q
  | PosInf, PosInf | NegInf, NegInf | NaN, NaN => True
  | _, _ => False
  end.

(** What the prior function of a block returns on its sub-vector. *)
Definition block_densities (th : list value) (v : block) : list value :=
  match prior_function v with
  | Some f => f (slice (i0 v) (i0 v + N v) th) (prior_args v)
  | None => []
  end.

(** The log-prior as the specification has it: the sum of all
    per-component log-densities of all blocks. *)
Definition log_prior_spec (desc : list (string * block)) (th : list value) : value :=
  Np.sum (concat (block_densities th <$> desc.*2)).

(** The array [dst] after [dst[start:stop] = src] for a [src] that has the
    length of the slice. *)
Definition put (start : nat) (src dst : list value) : list value :=
  take start dst ++ src ++ drop (start + length src) dst.

(** What the prior gradient function of a block returns on its sub-vector. *)
Definition block_gradient (th : list value) (v : block) : list value :=
  match prior_gradient_function v with
  | Some f => f (slice (i0 v) (i0 v + N v) th) (prior_args v)
  | None => []
  end.

(** The gradient array after the block [v] has written its slice. *)
Definition scatter (th grad : list value) (v : block) : list value :=
  put (i0 v) (block_gradient th v) grad.

(** Every block has a gradient function, and it returns one value for
    each component it is given. *)
Definition gradients_defined (desc : list (string * block)) (th : list value) : Prop :=
  Forall (λ pv, is_Some (prior_gradient_function pv.2)
                ∧ length (block_gradient th pv.2)
                  = length (slice (i0 pv.2) (i0 pv.2 + N pv.2) th)) desc.

(** A block with a prior gradient and a block without one. *)
Definition two_blocks : list (string * block) :=
  [("mass"%string,
    Block 0 2 None (Some (λ x _, (λ xi, sub zero xi) <$> x)) no_args None None);
   ("jitter"%string, Block 2 1 None None no_args None None)].

(* ===================================================================== *)
(** ** The loop of [check_constrained] on arrays, with a ghost counter *)
(* ===================================================================== *)

(** The arrays [check_constrained] works on, together with a ghost array
    that counts the reflections applied to each component. *)
Record arrays : Type := Arrays {
  a_theta : list value;
  a_sign : list value;
  a_count : list nat;
}.

(** What [check_upper] and [check_lower] do to the arrays and to [oob];
    the counter goes up wherever the mask is set. *)
Definition upper_rule (v : block) (st : arrays * bool) : arrays * bool :=
  let start := i0 v in
  let stop := i0 v + N v in
  match upper v with
  | Some u =>
      let above := (λ x, gt x u) <$> slice start stop (a_theta st.1) in
      (Arrays (update_masked start stop above (reflect u) (a_theta st.1))
              (update_masked start stop above flip (a_sign st.1))
              (update_masked start stop above S (a_count st.1)),
       st.2 || any above)
  | None => st
  end.

Definition lower_rule (v : block) (st : arrays * bool) : arrays * bool :=
  let start := i0 v in
  let stop := i0 v + N v in
  match lower v with
  | Some l =>
      let below := (λ x, lt x l) <$> slice start stop (a_theta st.1) in
      (Arrays (update_masked start stop below (reflect l) (a_theta st.1))
              (update_masked start stop below flip (a_sign st.1))
              (update_masked start stop below S (a_count st.1)),
       st.2 || any below)
  | None => st
  end.

(** The body of the [for] loop, one pass of it, and the [while] loop. *)
Definition scan_block (st : arrays * bool) (v : block) : arrays * bool :=
  lower_rule v (upper_rule v st).

Definition scan_arrays (desc : list (string * block)) (a : arrays) : arrays * bool :=
  foldl scan_block (a, false) desc.*2.

Fixpoint while_arrays (fuel : nat) (desc : list (string * block)) (a : arrays)
    : option arrays :=
  match fuel with
  | O => None
  | S fuel' =>
      let '(a', oob) := scan_arrays desc a in
      if oob then while_arrays fuel' desc a' else Some a'
  end.

(** On entry the signs are all one and nothing has been reflected. *)
Definition initial (th : list value) : arrays :=
  Arrays th (ones_like th) (replicate (length th) 0).

(** One component of the three arrays. *)
Definition cell (a : arrays) (i : nat) : option (value * value * nat) :=
  match a_theta a !! i, a_sign a !! i, a_count a !! i with
  | Some x, Some m, Some c => Some (x, m, c)
  | _, _, _ => None
  end.

(** The rules of the specification for one component [(x, m, c)]:
    position, momentum sign and number of reflections so far. *)
Definition upper_comp (v : block) (xmc : value * value * nat) : value * value * nat :=
  let '(x, m, c) := xmc in
  match upper v with
  | Some u => if gt x u then (reflect u x, flip m, S c) else xmc
  | None => xmc
  end.

Definition lower_comp (v : block) (xmc : value * value * nat) : value * value * nat :=
  let '(x, m, c) := xmc in
  match lower v with
  | Some l => if lt x l then (reflect l x, flip m, S c) else xmc
  | None => xmc
  end.

(** The three arrays have the same length. *)
Definition same_shape (a : arrays) : Prop :=
  length (a_sign a) = length (a_theta a) ∧ length (a_count a) = length (a_theta a).

(** No component of the block [v] is outside its bounds. *)
Definition quiet (v : block) (th : list value) : Prop :=
  ∀ i x, owns v i → th !! i = Some x →
    (∀ u, upper v = Some u → gt x u = false)
    ∧ (∀ l, lower v = Some l → lt x l = false).

(** The state in which [theta] and [sign] hold the arrays [a]. *)
Definition written (s : state) (theta sign : loc) (a : arrays) : state :=
  with_heap s (<[sign := a_sign a]> (<[theta := a_theta a]> (heap s))).

(** The heap has the position and sign arrays of [a] at [theta] and [sign]. *)
Definition holds (s : state) (theta sign : loc) (a : arrays) : Prop :=
  heap s !! theta = Some (a_theta a) ∧ heap s !! sign = Some (a_sign a).

(** The position [x] is inside the bounds of the block [v]. *)
Definition in_bounds (v : block) (x : value) : Prop :=
  ∃ xq, x = Fin xq
    ∧ (∀ u, upper v = Some (Fin u) → (xq <= u)%Q)
    ∧ (∀ l, lower v = Some (Fin l) → (l <= xq)%Q).

(** (-1) to the power [n]. *)
Definition minus_one_pow (n : nat) : value :=
  Fin (if Nat.even n then 1 else -1)%Q.

(** No index is owned by two blocks. *)
Definition disjoint_slices (desc : list (string * block)) : Prop :=
  ∀ i, length (owners desc i) ≤ 1.

(** The sign of every component is (-1) to the number of its reflections. *)
Definition parity (a : arrays) : Prop :=
  ∀ i x m c, cell a i = Some (x, m, c) → m = minus_one_pow c.

(** One scalar parameter reflected into [0, 1], into the degenerate
    interval [0, 0], and below the upper bound 1 only. *)
Definition unit_interval : list (string * block) :=
  [("a"%string, bounded 0 1 (Some (q 0 1)) (Some (q 1 1)))].

Definition degenerate : list (string * block) :=
  [("a"%string, bounded 0 1 (Some (q 0 1)) (Some (q 0 1)))].

Definition upper_only : list (string * block) :=
  [("a"%string, bounded 0 1 None (Some (q 1 1)))].


(* ===================================================================== *)
(** ** What a method may change *)
(* ===================================================================== *)

(** Every run of [m] relates the state before to the state after by [R],
    whether it returns or raises. *)
Definition preserves {A} (R : relation state) (m : M A) : Prop :=
  ∀ s, R s (m s).2.

(** Only [self.params] may differ. *)
Definition params_only : relation state :=
  λ s s', heap s' = heap s
          ∧ theta_desc (self s') = theta_desc (self s)
          ∧ ndim (self s') = ndim (self s)
          ∧ model_calls s' = model_calls s.

(** Only the array at [g] may differ. *)
Definition writes_only (g : loc) : relation state :=
  λ s s', self s' = self s
          ∧ model_calls s' = model_calls s
          ∧ ∀ l, l ≠ g → heap s' !! l = heap s !! l.

(** A log-prior that is minus infinity on its single block. *)
Definition rejecting : list (string * block) :=
  [("mass"%string, Block 0 1 (Some (λ x _, (λ _, NegInf) <$> x)) None no_args None None)].

(* ===================================================================== *)
(** ** The loop of [bounds] on lists, and example descriptors *)
(* ===================================================================== *)




(** A block whose prior arguments are ['mini'] and ['maxi'] only. *)
Definition with_bounds (start n : nat) (mini maxi : arg) : block :=
  Block start n None None {[ "mini"%string := mini; "maxi"%string := maxi ]} None None.


(** A block whose prior takes no bounds. *)
Definition no_bounds : list (string * block) :=
  [("mass"%string, Block 0 1 None None no_args None None)].

(** A flat prior: log-density 0 between ['mini'] and ['maxi'], minus
    infinity outside. *)
Definition tophat (x : list value) (args : gmap string arg) : list value :=
  match args !! "mini", args !! "maxi" with
  | Some (Scalar lo), Some (Scalar hi) =>
      (λ xi, if lt xi lo || gt xi hi then NegInf else zero) <$> x
  | _, _ => (λ _, NaN) <$> x
  end.

(** The gradient of a Gaussian log-density with unit variance around 0. *)
Definition pull_to_zero (x : list value) (args : gmap string arg) : list value :=
  opp <$> x.

(** The prior arguments [mini=lo, maxi=hi]. *)
Definition interval (lo hi : value) : gmap string arg :=
  {[ "mini"%string := Scalar lo; "maxi"%string := Scalar hi ]}.

(** Block A: two components, flat on [0, 1]; block B: one component,
    flat on [-1, 1]. *)
Definition blocks_AB : list (string * block) :=
  [("A"%string,
    Block 0 2 (Some tophat) (Some pull_to_zero) (interval (q 0 1) (q 1 1)) None None);
   ("B"%string,
    Block 2 1 (Some tophat) (Some pull_to_zero) (interval (q (-1) 1) (q 1 1)) None None)].

(** Vector bounds on two components and scalar bounds on a third. *)
Definition mixed_bounds : list (string * block) :=
  [("tage"%string,
    with_bounds 0 2 (Vector [q 0 1; q 0 1]) (Vector [q 1 1; q 2 1]));
   ("dust"%string, with_bounds 2 1 (Scalar (q 0 1)) (Scalar (q 4 1)))].

(* ===================================================================== *)
(** ** Contraction of arbitrary parameters *)
(* ===================================================================== *)

(** What numpy stores for [dst[start:stop] = a] on a slice of [n]
    elements: [a] itself, or its single element repeated [n] times. *)
Definition np_broadcast (n : nat) (a : list value) : list value :=
  if decide (length a = n) then a
  else match a with [x] => replicate n x | _ => a end.

(** The parameter of the block exists and has as many elements as the
    block, or a single one. *)
Definition fits (ps : gmap string (list value)) (pv : string * block) : Prop :=
  ∃ a, ps !! pv.1 = Some a ∧ (length a = N pv.2 ∨ length a = 1).

(** The array [dst] after the loop of [theta_from_params] over [desc]
    with the parameters [ps]. *)
Definition contracted (ps : gmap string (list value)) (dst : list value)
    (desc : list (string * block)) : list value :=
  foldl (λ dst pv, put (i0 pv.2) (np_broadcast (N pv.2) (default [] (ps !! pv.1))) dst)
        dst desc.

(** An object built with fixed parameters and no array on the heap, and
    an object with the fixed parameter [zred] next to the free [mass]. *)
Definition configured (desc : list (string * block)) (kwargs : list (string * arg))
    : state :=
  State ∅ (init desc kwargs) 0.

Definition fixed_zred : state :=
  State {[ 1%positive := [q 3 1] ]} (init no_bounds [("zred"%string, Scalar (q 1 10))]) 0.

(* ===================================================================== *)
(** ** Components that the reflection leaves alone *)
(* ===================================================================== *)

(** The value [x] is beyond no bound of the block [v]: [x > upper] and
    [x < lower] are both false, as they are for nan. *)
Definition inside (v : block) (x : value) : Prop :=
  (∀ u, upper v = Some u → gt x u = false)
  ∧ (∀ l, lower v = Some l → lt x l = false).

(** The value [x] at index [i] is beyond no bound of any block of the
    descriptor that owns [i]. *)
Definition settled (desc : list (string * block)) (i : nat) (x : value) : Prop :=
  ∀ p v, (p, v) ∈ desc → owns v i → inside v x.

(** The entries of a sign array. *)
Definition is_sign (m : value) : Prop := m = Fin 1 ∨ m = Fin (-1).

(** Two blocks, of which only the second has bounds. *)
Definition free_and_bounded : list (string * block) :=
  [("mass"%string, bounded 0 2 None None);
   ("tage"%string, bounded 2 1 (Some (q 0 1)) (Some (q 1 1)))].

(** What a block must provide for [bounds()] to get past it: ['mini'],
    and, unless ['mini'] is an empty array, ['maxi'] and room in the list
    for as many entries as ['mini'] has elements. *)
Definition bounds_usable (n : nat) (v : block) : Prop :=
  ∃ mini, prior_args v !! "mini" = Some mini
    ∧ (np_size mini ≠ 0 →
       is_Some (prior_args v !! "maxi") ∧ i0 v + np_size mini ≤ n).

(* ===================================================================== *)
(** ** SedModel: calibration, sky, mean_model and lnprob_grad *)
(* ===================================================================== *)

(** numpy's true division [a / b]. Zero has no sign in this development:
    a non-zero number divided by zero is the infinity of its own sign. *)
Definition true_divide (a b : value) : value :=
  match a, b with
  | NaN, _ | _, NaN => NaN
  | Fin x, Fin y =>
      if Qeq_bool y 0 then
        match (Qnum x ?= 0)%Z with Eq => NaN | Gt => PosInf | Lt => NegInf end
      else Fin (x / y)
  | Fin _, _ => Fin 0
  | PosInf, Fin y => if Qlt_bool y 0 then NegInf else PosInf
  | NegInf, Fin y => if Qlt_bool y 0 then PosInf else NegInf
  | _, _ => NaN
  end.

(** [x ** m] for a whole exponent [m]. *)
Fixpoint power (x : value) (m : nat) : value :=
  match m with
  | O => one
  | S m' => mul x (power x m')
  end.

(** [x != 0]; nan differs from everything. *)
Definition ne_zero (x : value) : bool :=
  match x with Fin q => negb (Qeq_bool q 0) | _ => true end.

(** An elementwise operation on two one-dimensional arrays with numpy's
    broadcasting: equal lengths, or one of the two has a single element. *)
Definition broadcast2 (f : value → value → value) (a b : list value)
    : result (list value) :=
  if decide (length a = length b) then Ok (zip_with f a b)
  else match a, b with
       | _, [y] => Ok ((λ x, f x y) <$> a)
       | [x], _ => Ok (f x <$> b)
       | _, _ => Raise ValueError
       end.

(** The truth value of a boolean array in an [if]. *)
Definition truth_value (a : list bool) : result bool :=
  match a with
  | [] => Ok false
  | [b] => Ok b
  | _ => Raise ValueError
  end.

(** [ps.get(p, default)] on [self.params]. *)
Definition params_get (ps : gmap string (list value)) (p : string) (default : arg) : arg :=
  match ps !! p with Some a => Vector a | None => default end.

(** [self.theta_desc[p]] *)
Fixpoint desc_get (p : string) (desc : list (string * block)) : option block :=
  match desc with
  | [] => None
  | (p', v) :: rest => if decide (p' = p) then Some v else desc_get p rest
  end.

(** The array after the in-place [spec *= factor]. *)
Definition imul (spec : list value) (factor : arg) : result (list value) :=
  match factor with
  | Scalar y => Ok ((λ x, mul x y) <$> spec)
  | Vector ys =>
      if decide (length ys = length spec) then Ok (zip_with mul spec ys)
      else match ys with
           | [y] => Ok ((λ x, mul x y) <$> spec)
           | _ => Raise ValueError
           end
  end.

(** The array after the in-place [dst[start:stop] += src]. *)
Definition iadd_slice (start stop : nat) (src : arg) (dst : list value)
    : result (list value) :=
  let view := slice start stop dst in
  let rest := drop (start + length view) dst in
  match src with
  | Scalar y => Ok (take start dst ++ ((λ x, add x y) <$> view) ++ rest)
  | Vector ys =>
      if decide (length ys = length view) then
        Ok (take start dst ++ zip_with add view ys ++ rest)
      else match ys with
           | [y] => Ok (take start dst ++ ((λ x, add x y) <$> view) ++ rest)
           | _ => Raise ValueError
           end
  end.

(** [a.min()]: a [ValueError] on an empty array is [None] here. *)
Definition array_min (a : list value) : option value :=
  match a with
  | [] => None
  | x :: xs => Some (foldl (λ m y, if lt y m then y else m) x xs)
  end.

(** [ZeroDivisionError] is raised by [mean_model] only. *)
Inductive failure : Type :=
| Exn (e : exn)
| ZeroDivisionError.

Inductive outcome (A : Type) : Type :=
| Returns (a : A)
| Fails (f : failure).
Arguments Returns {A} a.
Arguments Fails {A} f.

(** A call of the population-synthesis object [sps]; it is counted like
    a call of the model. *)
Definition call_sps {A} (m : M A) : M A :=
  λ s, m (State (heap s) (self s) (S (model_calls s))).

(** [sky()] *)
Definition sky : value := Fin 0.

(** [self.params.get('jitter', 0.) != 0] as the condition of an [if]. *)
Definition jitter_active (ps : gmap string (list value)) : result bool :=
  match ps !! "jitter" with
  | Some a => truth_value (ne_zero <$> a)
  | None => Ok false
  end.

(** [g.get(p, 0)] on a dictionary of gradient terms. *)
Definition dict_get (g : gmap string (list value)) (p : string) : arg :=
  match g !! p with Some a => Vector a | None => Scalar (Fin 0) end.

(** The methods below read the observations [self.obs], which are fixed
    during sampling: the wavelengths, and whether a spectrum and filters
    are present. What [sps] returns, the method [nebular] (which this
    module calls but does not define) and the floating-point array
    expressions for the model and for the two likelihood gradients are
    parameters. *)
Section SedModelMethods.

Variable wavelength : list value.
Variable spectrum_given filters_given : bool.

(** [calibration(theta)]: the polynomial
    [(1 + sum_m poly_coeffs[m-1] * x**m) * spec_norm] in
    [x = wavelength / pivot_wave - 1], or [1.0] without ['pivot_wave']. *)
Definition calibration (theta : option loc) : M arg :=
  match theta with Some t => set_parameters t | None => ret tt end ;;
  me <- get_self ;;
  match params me !! "pivot_wave" with
  | Some pivot =>
      ratio <- lift (broadcast2 true_divide wavelength pivot) ;;
      let x := (λ r, sub r one) <$> ratio in
      coeffs <- key (params me !! "poly_coeffs") ;;
      let poly := (λ xj, Np.sum (imap (λ m c, mul (power xj (S m)) c) coeffs)) <$> x in
      norm <- key (params me !! "spec_norm") ;;
      cal <- lift (broadcast2 mul ((λ y, add one y) <$> poly) norm) ;;
      ret (Vector cal)
  | None => ret (Scalar one)
  end.

Variables phot_t extras_t : Type.
Variable get_spectrum : gmap string (list value) → M (list value * phot_t * extras_t).

(** [mean_model(theta, sps)] *)
Definition mean_model (theta : loc)
    : state → outcome (list value * phot_t * extras_t) * state :=
  λ s,
    match (set_parameters theta ;;
           me <- get_self ;;
           out <- call_sps (get_spectrum (params me)) ;;
           me <- get_self ;;
           spec <- lift (imul out.1.1
                           (params_get (params me) "normalization_guess" (Scalar one))) ;;
           ret (spec, out.1.2, out.2)) s with
    | (Raise e, s1) => (Fails (Exn e), s1)
    | (Ok (spec, phot, extras), s1) =>
        match length spec with
        | O => (Fails ZeroDivisionError, s1)
        | S n =>
            match array_min (filter (λ x, gt x zero = true) spec) with
            | None => (Fails (Exn ValueError), s1)
            | Some m =>
                let tiny := mul (Fin (1 # Pos.of_succ_nat n)) m in
                (Returns ((λ x, if lt x tiny then tiny else x) <$> spec, phot, extras), s1)
            end
        end
    end.

Variables components nebula model_t : Type.
Variable get_components : M components.
Variable nebular : M nebula.
Variable mean : components → arg → nebula → value → ThetaParameters → result model_t.
Variable spec_gradient : model_t → arg → components → ThetaParameters → result (list value).
Variable phot_gradient : model_t → components → ThetaParameters → result (list value).

(** [lnprob_grad(theta, sps)] *)
Definition lnprob_grad (theta : loc) : M loc :=
  th <- load theta ;;
  me <- get_self ;;
  mass <- key (desc_get "mass" (theta_desc me)) ;;
  let status := bool_decide (length th = N mass)
                && bool_decide ((theta_desc me).*1 = ["mass"%string]) in
  (if status then ret tt else raise ValueError) ;;
  set_parameters theta ;;
  comps <- call_sps get_components ;;
  cal <- calibration None ;;
  neb <- nebular ;;
  me <- get_self ;;
  model <- lift (mean comps cal neb sky me) ;;
  gradp_spec <- (if spectrum_given then
                   g <- lift (spec_gradient model cal comps me) ;;
                   ret ({[ "mass"%string := g ]} : gmap string (list value))
                 else ret ∅) ;;
  jitter <- lift (jitter_active (params me)) ;;
  (if jitter then raise ValueError else ret tt) ;;
  gradp_phot <- (if filters_given then
                   g <- lift (phot_gradient model comps me) ;;
                   ret ({[ "mass"%string := g ]} : gmap string (list value))
                 else ret ∅) ;;
  gradp <- lnp_prior_grad theta ;;
  for_each (theta_desc me) (λ pv,
    let '(p, v) := pv in
    let start := i0 v in
    let stop := i0 v + N v in
    for_each [gradp_spec; gradp_phot; ∅] (λ g,
      dst <- load gradp ;;
      new <- lift (iadd_slice start stop (dict_get g p) dst) ;;
      store gradp new)) ;;
  ret gradp.

End SedModelMethods.

(** A likelihood channel as [lnprob_grad] adds it to the gradient: its
    array when the observations have the data, and 0 otherwise; and the
    array [g] after [g += t]. *)
Definition channel (given : bool) (g : list value) : arg :=
  if given then Vector g else Scalar (Fin 0).

Definition added (g : list value) (t : arg) : list value :=
  match t with
  | Scalar y => (λ x, add x y) <$> g
  | Vector ys => zip_with add g ys
  end.

(** Two amplitudes with a Gaussian prior gradient, the sampler's vector
    at location 1, and the same object with a fixed jitter of 0.1 or with
    the parameters of a calibration polynomial around 5500. *)
Definition mass_only : list (string * block) :=
  [("mass"%string, Block 0 2 None (Some pull_to_zero) no_args None None)].

Definition with_jitter : state :=
  State {[ 1%positive := [q 1 1; q 2 1] ]}
        (init mass_only [("jitter"%string, Scalar (q 1 10))]) 0.

Definition with_calibration : state :=
  State {[ 1%positive := [q 1 1; q 2 1] ]}
        (init mass_only [("pivot_wave"%string, Scalar (q 5500 1));
                         ("poly_coeffs"%string, Vector [q 1 10; q (-1) 5]);
                         ("spec_norm"%string, Scalar (q 2 1))]) 0.

(** An [sps] whose spectrum has a negative pixel. *)
Definition three_pixels (ps : gmap string (list value)) : M (list value * unit * unit) :=
  ret ([q (-1) 1; q 2 1; q 4 1], tt, tt).

(* ===================================================================== *)
(** ** SedModel.add_obs *)
(* ===================================================================== *)

(** A value of the dictionary [obs]: an array (by reference, as the
    caller and the model share it), a boolean mask, a number, [None], or
    something this module only passes on (the filters). *)
Inductive obs_value : Type :=
| ArrayAt (l : loc)
| MaskOf (m : list bool)
| Number (x : value)
| NoneValue
| Opaque.

(** [a[m]] for a boolean mask [m] of the length of [a]. *)
Definition boolean_index (a : list value) (m : list bool) : result (list value) :=
  if decide (length m = length a) then
    Ok ((filter (λ xm, xm.2 = true) (zip a m)).*1)
  else Raise IndexError.

(** [sp[mk]] on two values of [obs]. *)
Definition masked_index (sp mk : obs_value) : M (list value) :=
  match sp, mk with
  | ArrayAt l, MaskOf m => a <- load l ;; lift (boolean_index a m)
  | _, _ => raise TypeError
  end.

(** The value [obs[k]] is bound to after [obs[k] /= sc]: an array is
    divided in place, a number is replaced. *)
Definition idiv (v : obs_value) (sc : value) : M obs_value :=
  match v with
  | ArrayAt l => a <- load l ;; store l ((λ x, true_divide x sc) <$> a) ;; ret (ArrayAt l)
  | Number x => ret (Number (true_divide x sc))
  | _ => raise TypeError
  end.

(** [add_obs(obs, rescale)]; the result is the pair of [self.obs], which
    is the caller's dictionary itself, and [self.filters]. [np.median] is
    a parameter. *)
Section add_obs.
Variable median : list value → value.

Definition add_obs (obs : gmap string obs_value) (rescale : bool)
    : M (gmap string obs_value * obs_value) :=
  filters <- key (obs !! "filters") ;;
  if rescale then
    sp <- key (obs !! "spectrum") ;;
    mk <- key (obs !! "mask") ;;
    selected <- masked_index sp mk ;;
    let sc := median selected in
    let obs := <["scale" := Number sc]> obs in
    sp <- key (obs !! "spectrum") ;;
    sp' <- idiv sp sc ;;
    let obs := <["spectrum" := sp']> obs in
    un <- key (obs !! "unc") ;;
    un' <- idiv un sc ;;
    let obs := <["unc" := un']> obs in
    ret (obs, filters)
  else
    ret (<["scale" := Number one]> obs, filters).

End add_obs.

(** Observations of two pixels, of which the mask selects the first;
    the spectrum is at location 1 and its uncertainty at location 2. *)
Definition two_pixels : gmap string obs_value :=
  {[ "filters"%string := Opaque; "spectrum"%string := ArrayAt 1%positive;
     "mask"%string := MaskOf [true; false]; "unc"%string := ArrayAt 2%positive ]}.

Definition observing : state :=
  State {[ 1%positive := [q 2 1; q 4 1]; 2%positive := [q 1 1; q 1 2] ]}
        (init mass_only []) 0.

(** The median of a single value. *)
Definition only_value (a : list value) : value :=
  match a with [x] => x | _ => NaN end.

(* ===================================================================== *)
(** ** check_constrained on binary64 values *)
(* ===================================================================== *)

(** The loop of [check_constrained] once more, with the arithmetic numpy
    performs: IEEE binary64 with rounding to nearest, overflow to infinity
    and nan. The two arrays are passed explicitly, and a block keeps the
    four entries the loop reads. *)
Module F64.

Record block : Type := Block {
  i0 : nat;
  N : nat;
  upper : option float;
  lower : option float;
}.

(** [2 * bound - x] and [s * -1] *)
Definition reflect (bound x : float) : float := (2 * bound - x)%float.
Definition flip (s : float) : float := (s * -1)%float.

(** The two [if] statements of the loop body on [(theta, sign, oob)]. *)
Definition check_upper (v : block) (st : list float * list float * bool)
    : list float * list float * bool :=
  let '(theta, sign, oob) := st in
  let start := i0 v in
  let stop := i0 v + N v in
  match upper v with
  | Some u =>
      let above := (λ x, PrimFloat.ltb u x) <$> slice start stop theta in
      (update_masked start stop above (reflect u) theta,
       update_masked start stop above flip sign,
       oob || any above)
  | None => st
  end.

Definition check_lower (v : block) (st : list float * list float * bool)
    : list float * list float * bool :=
  let '(theta, sign, oob) := st in
  let start := i0 v in
  let stop := i0 v + N v in
  match lower v with
  | Some l =>
      let below := (λ x, PrimFloat.ltb x l) <$> slice start stop theta in
      (update_masked start stop below (reflect l) theta,
       update_masked start stop below flip sign,
       oob || any below)
  | None => st
  end.

(** One pass of the [for] loop, started with [oob = False]. *)
Definition scan (desc : list (string * block)) (theta sign : list float)
    : list float * list float * bool :=
  foldl (λ st pv, check_lower pv.2 (check_upper pv.2 st)) (theta, sign, false) desc.

(** The [while oob] loop with [fuel] passes; [None]: still running. *)
Fixpoint while_oob (fuel : nat) (desc : list (string * block)) (theta sign : list float)
    : option (list float * list float * bool) :=
  match fuel with
  | O => None
  | S fuel' =>
      let '(theta', sign', oob) := scan desc theta sign in
      if oob then while_oob fuel' desc theta' sign' else Some (theta', sign', oob)
  end.

(** [check_constrained(theta)] with [sign = np.ones_like(theta)]. *)
Definition check_constrained (fuel : nat) (desc : list (string * block))
    (theta : list float) : option (list float * list float * bool) :=
  while_oob fuel desc theta (replicate (length theta) 1%float).

(** One parameter with [lower = 0] and [upper = 1]. *)
Definition unit_interval : list (string * block) :=
  [("a"%string, Block 0 1 (Some 1%float) (Some 0%float))].

End F64.

(* ===================================================================== *)
(** ** Properties *)
(* ===================================================================== *)

Example reflect_2_3 :
  reflect (q 1 1) (q 23 10) = q (-3) 10.
Proof. reflexivity. Qed.

(* --------------------------------------------------------------------- *)
(** *** Slices and slice assignment *)
(* --------------------------------------------------------------------- *)

Section slices.
Context {A : Type}.
Implicit Types (a : list A) (i k start stop : nat).

Lemma lookup_slice start stop a k :
  slice start stop a !! k
  = if decide (k < stop - start) then a !! (start + k) else None.
Proof.
  unfold slice. rewrite lookup_take. case_decide; [|done].
  by rewrite lookup_drop.
Qed.

Lemma length_slice start stop a :
  length (slice start stop a) = (stop - start) `min` (length a - start).
Proof. unfold slice. by rewrite length_take, length_drop. Qed.

End slices.

Lemma slice_length_irrel {A B} start stop (a : list A) (b : list B) :
  length a = length b → length (slice start stop a) = length (slice start stop b).
Proof. intros Hlen. rewrite !length_slice. lia. Qed.

Section arrays.
Implicit Types (a src dst : list value) (i k start stop : nat).

Lemma lookup_fill src dst v i :
  length dst = length src →
  fill src dst v !! i = if decide (owns v i) then src !! i else dst !! i.
Proof.
  intros Hlen. unfold fill, owns.
  set (m := length (slice (i0 v) (i0 v + N v) dst)).
  assert (length (slice (i0 v) (i0 v + N v) src) = m) as Hm.
  { unfold m. rewrite !length_slice. lia. }
  assert (m = (i0 v + N v - i0 v) `min` (length dst - i0 v)) as Hm'.
  { unfold m. by rewrite length_slice. }
  destruct (decide (i < i0 v `min` length dst)) as [Hi|Hi].
  { rewrite lookup_app_l by (rewrite length_take; lia).
    rewrite lookup_take_lt by lia. by rewrite decide_False by lia. }
  rewrite lookup_app_r by (rewrite length_take; lia).
  rewrite length_take.
  destruct (decide (i - i0 v `min` length dst < m)) as [Hk|Hk].
  { rewrite lookup_app_l by lia. rewrite lookup_slice.
    rewrite decide_True by lia. rewrite decide_True by lia.
    f_equal. lia. }
  rewrite lookup_app_r by lia. rewrite Hm, lookup_drop.
  case_decide as Ho.
  - rewrite (proj2 (lookup_ge_None src i)) by lia.
    apply lookup_ge_None. lia.
  - destruct (decide (length dst ≤ i)).
    + rewrite (proj2 (lookup_ge_None dst i)) by lia.
      apply lookup_ge_None. lia.
    + f_equal. lia.
Qed.
End arrays.

(* --------------------------------------------------------------------- *)
(** *** Expansion and contraction (C1) *)
(* --------------------------------------------------------------------- *)

Lemma with_params_id s : with_params s (params (self s)) = s.
Proof. by destruct s as [h [d ps n] c]. Qed.

Lemma with_heap_id s : with_heap s (heap s) = s.
Proof. by destruct s. Qed.

Section expand.
Variables (theta : loc) (th : list value).

Lemma set_parameters_loop desc s :
  heap s !! theta = Some th →
  for_each desc (λ pv,
    let '(p, v) := pv in
    let start := i0 v in
    let stop := i0 v + N v in
    th <- load theta ;;
    set_param p (slice start stop th)) s
  = (Ok tt, with_params s (expanded desc th (params (self s)))).
Proof.
  revert s. induction desc as [|[p v] desc IH]; intros s Hth; simpl.
  - unfold ret. by rewrite with_params_id.
  - unfold bind at 1. unfold bind at 1. unfold load at 1. rewrite Hth.
    simpl. rewrite IH by done. done.
Qed.

Lemma set_parameters_run s :
  heap s !! theta = Some th →
  length th = ndim (self s) →
  set_parameters theta s
  = (Ok tt, with_params s (expanded (theta_desc (self s)) th (params (self s)))).
Proof.
  intros Hth Hlen. unfold set_parameters.
  unfold bind at 1. unfold load at 1. rewrite Hth.
  unfold bind at 1. unfold get_self at 1.
  unfold bind at 1. rewrite bool_decide_eq_true_2 by done. simpl.
  by apply set_parameters_loop.
Qed.

Lemma expanded_notin desc ps p :
  p ∉ desc.*1 → expanded desc th ps !! p = ps !! p.
Proof.
  revert ps. induction desc as [|[p' v] desc IH]; intros ps Hp; [done|].
  simpl in *. apply not_elem_of_cons in Hp as [Hne Hp].
  unfold expanded in *. simpl. rewrite IH by done.
  by rewrite lookup_insert_ne.
Qed.

Lemma expanded_lookup desc ps p v :
  NoDup desc.*1 → (p, v) ∈ desc →
  expanded desc th ps !! p = Some (slice (i0 v) (i0 v + N v) th).
Proof.
  revert ps. induction desc as [|[p' v'] desc IH]; intros ps Hnd Hin.
  - by apply elem_of_nil in Hin.
  - simpl in Hnd. apply NoDup_cons in Hnd as [Hp' Hnd].
    apply elem_of_cons in Hin as [Heq|Hin].
    + injection Heq as -> ->.
      change (expanded ((p', v') :: desc) th ps)
        with (expanded desc th (<[p' := slice (i0 v') (i0 v' + N v') th]> ps)).
      rewrite expanded_notin by done. by rewrite lookup_insert_eq.
    + change (expanded ((p', v') :: desc) th ps)
        with (expanded desc th (<[p' := slice (i0 v') (i0 v' + N v') th]> ps)).
      by apply IH.
Qed.
End expand.

Lemma length_fill src dst v :
  length dst = length src → length (fill src dst v) = length dst.
Proof.
  intros Hlen. unfold fill.
  rewrite !length_app, length_take, length_drop, !length_slice. lia.
Qed.

Lemma assign_slice_fill src dst v :
  length dst = length src →
  assign_slice (i0 v) (i0 v + N v) (slice (i0 v) (i0 v + N v) src) dst
  = Ok (fill src dst v).
Proof.
  intros Hlen. unfold assign_slice.
  rewrite decide_True by (rewrite !length_slice; lia). done.
Qed.

Lemma lookup_foldl_fill src blocks dst i :
  length dst = length src →
  foldl (fill src) dst blocks !! i
  = if decide (Exists (λ v, owns v i) blocks) then src !! i else dst !! i.
Proof.
  revert dst. induction blocks as [|v blocks IH]; intros dst Hlen; cbn [foldl].
  - rewrite decide_False; [done|]. by intros ?%Exists_nil.
  - rewrite IH by (by rewrite length_fill). rewrite lookup_fill by done.
    destruct (decide (Exists (λ v, owns v i) blocks)) as [He|He].
    + rewrite decide_True; [done|]. by apply Exists_cons_tl.
    + destruct (decide (owns v i)) as [Ho|Ho].
      * rewrite decide_True; [done|]. by apply Exists_cons_hd.
      * rewrite decide_False; [done|]. by intros [?|?]%Exists_cons.
Qed.

Lemma length_foldl_fill src blocks dst :
  length dst = length src → length (foldl (fill src) dst blocks) = length dst.
Proof.
  revert dst. induction blocks as [|v blocks IH]; intros dst Hlen; simpl; [done|].
  rewrite IH by (by rewrite length_fill). by apply length_fill.
Qed.

Section contract.
Variables (l : loc) (src : list value).

Lemma theta_from_params_loop desc s dst :
  heap s !! l = Some dst →
  length dst = length src →
  (∀ p v, (p, v) ∈ desc →
     params (self s) !! p = Some (slice (i0 v) (i0 v + N v) src)) →
  for_each desc (λ pv,
    let '(p, v) := pv in
    let start := i0 v in
    let stop := i0 v + N v in
    src <- get_param p ;;
    dst <- load l ;;
    new <- lift (assign_slice start stop src dst) ;;
    store l new) s
  = (Ok tt, with_heap s (<[l := foldl (fill src) dst desc.*2]> (heap s))).
Proof.
  revert s dst. induction desc as [|[p v] desc IH]; intros s dst Hl Hlen Hps; simpl.
  - unfold ret. rewrite insert_id by done. by rewrite with_heap_id.
  - unfold bind at 1. unfold bind at 1. unfold get_param, bind at 1, get_self at 1.
    rewrite (Hps p v) by apply list_elem_of_here. simpl.
    unfold bind at 1. unfold load at 1. rewrite Hl.
    unfold bind at 1. unfold lift at 1. rewrite assign_slice_fill by done.
    unfold store at 1.
    rewrite (IH _ (fill src dst v)); simpl.
    + by rewrite insert_insert_eq.
    + by rewrite lookup_insert_eq.
    + by rewrite length_fill.
    + intros p' v' Hin. apply Hps. by apply list_elem_of_further.
Qed.
End contract.

Lemma partitions_covered desc i :
  partitions desc → i < desc_ndim desc → Exists (λ v, owns v i) desc.*2.
Proof.
  intros (_ & _ & Hc) Hi.
  rewrite Forall_seq in Hc. specialize (Hc i ltac:(lia)).
  unfold owners in Hc.
  destruct (filter _ desc) as [|pv ?] eqn:E; [done|].
  assert (pv ∈ filter (λ pv : string * block, owns pv.2 i) desc) as Hin.
  { rewrite E. apply list_elem_of_here. }
  apply list_elem_of_filter in Hin as [Ho Hin].
  apply Exists_exists. exists pv.2. split; [|done].
  apply list_elem_of_fmap. by exists pv.
Qed.

(** C1: for a descriptor whose slices partition [0, ndim) and a vector
    of length [ndim], [theta_from_params()] after [set_parameters(theta)]
    returns a fresh array that equals [theta] component by component;
    [theta] itself is left as it was. *)
Theorem round_trip s theta th :
  constructed (self s) →
  partitions (theta_desc (self s)) →
  heap s !! theta = Some th →
  length th = ndim (self s) →
  ∃ theta' s',
    (set_parameters theta ;; theta_from_params) s = (Ok theta', s')
    ∧ heap s' !! theta' = Some th
    ∧ theta' ≠ theta
    ∧ heap s' !! theta = Some th.
Proof.
  intros Hc Hp Hth Hlen.
  set (l := fresh (dom (heap s))).
  assert (heap s !! l = None) as Hl.
  { apply not_elem_of_dom. apply is_fresh. }
  assert (l ≠ theta) as Hne by congruence.
  unfold bind at 1. rewrite (set_parameters_run theta th) by done.
  unfold theta_from_params. unfold bind at 1, get_self at 1. simpl.
  unfold bind at 1, alloc at 1. simpl. fold l.
  unfold bind at 1.
  erewrite (theta_from_params_loop l th); simpl.
  - unfold ret. eexists _, _. split; [done|]. simpl.
    rewrite lookup_insert_eq, lookup_insert_ne, lookup_insert_ne by done.
    split_and!; [|done..]. f_equal.
    apply list_eq. intros i.
    rewrite (lookup_foldl_fill th _ (zeros (ndim (self s))))
      by (unfold zeros; rewrite length_replicate; lia).
    case_decide as He; [done|].
    destruct (decide (i < ndim (self s))) as [Hi|Hi].
    + exfalso. apply He. apply partitions_covered; [done|]. by rewrite <-Hc.
    + rewrite (proj2 (lookup_ge_None th i)) by lia.
      apply lookup_ge_None. unfold zeros. rewrite length_replicate. lia.
  - by rewrite lookup_insert_eq.
  - unfold zeros. rewrite length_replicate. lia.
  - intros p v Hin. apply expanded_lookup; [|done]. apply Hp.
Qed.

(* --------------------------------------------------------------------- *)
(** *** The log-prior (C2) *)
(* --------------------------------------------------------------------- *)

Global Instance veq_equivalence : Equivalence veq.
Proof.
  split.
  - intros []; simpl; done.
  - intros [] []; simpl; try done.
  - intros [] [] []; simpl; try done. intros H1 H2. by rewrite H1.
Qed.

Global Instance add_proper : Proper (veq ==> veq ==> veq) add.
Proof.
  intros [] [] H1 [] [] H2; simpl in *; try done. by rewrite H1, H2.
Qed.

Lemma add_assoc a b c : veq (add (add a b) c) (add a (add b c)).
Proof. destruct a, b, c; simpl; try done. by rewrite Qplus_assoc. Qed.

Lemma add_zero_l a : veq (add zero a) a.
Proof. destruct a; simpl; try done. by rewrite Qplus_0_l. Qed.

Lemma add_zero_r a : veq (add a zero) a.
Proof. destruct a; simpl; try done. by rewrite Qplus_0_r. Qed.

Lemma foldl_add acc a : veq (foldl add acc a) (add acc (Np.sum a)).
Proof.
  unfold Np.sum. revert acc. induction a as [|x a IH]; intros acc; simpl.
  - by rewrite add_zero_r.
  - rewrite (IH (add acc x)), (IH (add zero x)).
    by rewrite add_zero_l, add_assoc.
Qed.

Lemma sum_app a b : veq (Np.sum (a ++ b)) (add (Np.sum a) (Np.sum b)).
Proof. unfold Np.sum at 1. rewrite foldl_app. apply foldl_add. Qed.

Lemma foldl_block_sums (d : block → list value) blocks acc :
  veq (foldl (λ acc v, add acc (Np.sum (d v))) acc blocks)
      (add acc (Np.sum (concat (d <$> blocks)))).
Proof.
  revert acc. induction blocks as [|v blocks IH]; intros acc; simpl.
  - by rewrite add_zero_r.
  - rewrite IH, sum_app. by rewrite add_assoc.
Qed.

Lemma prior_product_loop theta th (desc : list (string * block)) acc s :
  heap s !! theta = Some th →
  Forall (λ pv, is_Some (prior_function pv.2)) desc →
  for_acc desc acc (λ lnp_prior pv,
    let '(p, v) := pv in
    let start := i0 v in
    let stop := i0 v + N v in
    f <- key (prior_function v) ;;
    th <- load theta ;;
    ret (add lnp_prior (Np.sum (f (slice start stop th) (prior_args v))))) s
  = (Ok (foldl (λ acc v, add acc (Np.sum (block_densities th v))) acc desc.*2), s).
Proof.
  intros Hth. revert acc. induction desc as [|[p v] desc IH]; intros acc Hf.
  - done.
  - apply Forall_cons in Hf as [[f Hf] Hfs]. simpl in Hf.
    cbn [for_acc]. unfold bind at 1. unfold bind at 1. rewrite Hf.
    cbn [key]. unfold ret at 1. unfold bind at 1. unfold load at 1. rewrite Hth.
    unfold ret at 1. rewrite IH by done. rewrite fmap_cons. cbn [foldl snd].
    assert (block_densities th v = f (slice (i0 v) (i0 v + N v) th) (prior_args v))
      as -> by (unfold block_densities; by rewrite Hf).
    done.
Qed.

(** C2: for a vector of length [ndim], [prior_product] returns the sum
    over all blocks and all components of the log-densities that each
    block's prior function returns on the block's sub-vector and
    [prior_args]; nothing is clipped or transformed, and the state is left
    as it was. The sum is equal up to the representation of rationals. *)
Theorem prior_product_is_sum s theta th :
  heap s !! theta = Some th →
  length th = ndim (self s) →
  Forall (λ pv, is_Some (prior_function pv.2)) (theta_desc (self s)) →
  ∃ lnp_prior,
    prior_product theta s = (Ok lnp_prior, s)
    ∧ veq lnp_prior (log_prior_spec (theta_desc (self s)) th).
Proof.
  intros Hth _ Hf. eexists. split.
  - unfold prior_product. unfold bind at 1, get_self at 1.
    by apply prior_product_loop.
  - rewrite foldl_block_sums. apply add_zero_l.
Qed.

(* --------------------------------------------------------------------- *)
(** *** The prior gradient (C3) *)
(* --------------------------------------------------------------------- *)

Lemma length_put start src dst :
  length src = length (slice start (start + length src) dst) →
  length (put start src dst) = length dst.
Proof.
  intros Hlen. unfold put. rewrite length_slice in Hlen.
  rewrite !length_app, length_take, length_drop. lia.
Qed.

Lemma lookup_put start src dst i :
  length src = length (slice start (start + length src) dst) →
  put start src dst !! i
  = if decide (start ≤ i < start + length src) then src !! (i - start) else dst !! i.
Proof.
  intros Hlen. unfold put. rewrite length_slice in Hlen.
  destruct (decide (i < start `min` length dst)) as [Hi|Hi].
  { rewrite lookup_app_l by (rewrite length_take; lia).
    rewrite lookup_take_lt by lia. by rewrite decide_False by lia. }
  rewrite lookup_app_r by (rewrite length_take; lia). rewrite length_take.
  destruct (decide (i - start `min` length dst < length src)) as [Hk|Hk].
  { rewrite lookup_app_l by lia. rewrite decide_True by lia. f_equal. lia. }
  rewrite lookup_app_r by lia. rewrite lookup_drop.
  rewrite decide_False by lia.
  destruct (decide (length dst ≤ i)).
  - rewrite (proj2 (lookup_ge_None dst i)) by lia. apply lookup_ge_None. lia.
  - f_equal. lia.
Qed.

Lemma assign_slice_put start stop src dst :
  length src = length (slice start stop dst) →
  assign_slice start stop src dst = Ok (put start src dst).
Proof.
  intros Hlen. unfold assign_slice, put. rewrite decide_True by done.
  by rewrite Hlen.
Qed.

Lemma filter_one_split {A} (P : A → Prop) `{!∀ x, Decision (P x)} (l : list A) x :
  length (filter P l) = 1 → x ∈ l → P x →
  ∃ l1 l2, l = l1 ++ x :: l2 ∧ Forall (λ y, ¬ P y) l1 ∧ Forall (λ y, ¬ P y) l2.
Proof.
  induction l as [|y l IH]; intros Hlen Hin HP.
  - by apply elem_of_nil in Hin.
  - rewrite filter_cons in Hlen. destruct (decide (P y)) as [Hy|Hy].
    + simpl in Hlen.
      assert (filter P l = []) as Hnil by (by apply nil_length_inv; lia).
      assert (Forall (λ y, ¬ P y) l) as Hall.
      { apply Forall_forall. intros z Hz HPz.
        assert (z ∈ filter P l) as Hzf by (by apply list_elem_of_filter).
        rewrite Hnil in Hzf. by apply elem_of_nil in Hzf. }
      apply elem_of_cons in Hin as [->|Hin].
      * by exists [], l.
      * rewrite Forall_forall in Hall. by destruct (Hall x Hin).
    + apply elem_of_cons in Hin as [->|Hin]; [done|].
      destruct (IH Hlen Hin HP) as (l1 & l2 & -> & H1 & H2).
      exists (y :: l1), l2. split_and!; [done| |done]. by constructor.
Qed.

Section gradient.
Variables (theta : loc) (th : list value).

Lemma length_scatter grad v :
  length grad = length th →
  length (block_gradient th v) = length (slice (i0 v) (i0 v + N v) th) →
  length (scatter th grad v) = length grad.
Proof.
  intros Hlen Hg. unfold scatter. apply length_put.
  rewrite Hg, !length_slice. lia.
Qed.

Lemma lookup_scatter grad v i :
  length grad = length th →
  length (block_gradient th v) = length (slice (i0 v) (i0 v + N v) th) →
  scatter th grad v !! i
  = if decide (owns v i ∧ i < length th)
    then block_gradient th v !! (i - i0 v) else grad !! i.
Proof.
  intros Hlen Hg. unfold scatter. rewrite lookup_put.
  2:{ rewrite Hg, !length_slice. lia. }
  rewrite Hg, length_slice. unfold owns.
  destruct (decide (i0 v ≤ i < i0 v + N v ∧ i < length th)).
  - by rewrite decide_True by lia.
  - by rewrite decide_False by lia.
Qed.

Lemma lookup_foldl_scatter_other blocks grad i :
  length grad = length th →
  Forall (λ v, length (block_gradient th v)
               = length (slice (i0 v) (i0 v + N v) th)) blocks →
  Forall (λ v, ¬ owns v i) blocks →
  foldl (scatter th) grad blocks !! i = grad !! i.
Proof.
  revert grad. induction blocks as [|v blocks IH]; intros grad Hlen Hg Hno; [done|].
  apply Forall_cons in Hg as [Hg Hgs]. apply Forall_cons in Hno as [Hno Hnos].
  cbn [foldl]. rewrite IH; [|by rewrite length_scatter|done..].
  rewrite lookup_scatter by done. rewrite decide_False; [done|]. by intros [? _].
Qed.

Lemma length_foldl_scatter blocks grad :
  length grad = length th →
  Forall (λ v, length (block_gradient th v)
               = length (slice (i0 v) (i0 v + N v) th)) blocks →
  length (foldl (scatter th) grad blocks) = length grad.
Proof.
  revert grad. induction blocks as [|v blocks IH]; intros grad Hlen Hg; [done|].
  apply Forall_cons in Hg as [Hg Hgs].
  cbn [foldl]. rewrite IH; [|by rewrite length_scatter|done].
  by apply length_scatter.
Qed.

Lemma lnp_prior_grad_loop grad (desc : list (string * block)) s g :
  heap s !! theta = Some th →
  heap s !! grad = Some g →
  grad ≠ theta →
  length g = length th →
  gradients_defined desc th →
  for_each desc (λ pv,
    let '(p, v) := pv in
    let start := i0 v in
    let stop := i0 v + N v in
    f <- key (prior_gradient_function v) ;;
    th <- load theta ;;
    dst <- load grad ;;
    new <- lift (assign_slice start stop (f (slice start stop th) (prior_args v)) dst) ;;
    store grad new) s
  = (Ok tt, with_heap s (<[grad := foldl (scatter th) g desc.*2]> (heap s))).
Proof.
  intros Hth Hgrad Hne. revert s g Hth Hgrad.
  induction desc as [|[p v] desc IH]; intros s g Hth Hgrad Hlen Hdef.
  - cbn. unfold ret. rewrite insert_id by done. by rewrite with_heap_id.
  - apply Forall_cons in Hdef as [[[f Hf] Hfl] Hdef]. cbn [snd] in Hf, Hfl.
    assert (block_gradient th v = f (slice (i0 v) (i0 v + N v) th) (prior_args v))
      as Hbg by (unfold block_gradient; by rewrite Hf).
    cbn [for_each]. unfold bind at 1. unfold bind at 1. rewrite Hf.
    cbn [key]. unfold ret at 1. unfold bind at 1. unfold load at 1. rewrite Hth.
    unfold bind at 1. unfold load at 1. rewrite Hgrad.
    unfold bind at 1. unfold lift at 1. rewrite <-Hbg.
    rewrite assign_slice_put.
    2:{ rewrite Hfl. by apply slice_length_irrel. }
    unfold store at 1.
    rewrite (IH _ (scatter th g v)); cbn [heap self model_calls].
    + unfold with_heap. cbn. by rewrite insert_insert_eq.
    + by rewrite lookup_insert_ne.
    + by rewrite lookup_insert_eq.
    + by rewrite length_scatter.
    + done.
Qed.
End gradient.

(** X10: The part of the gradient zero-fill that the code meets: provided
    every block has a gradient function, [lnp_prior_grad] succeeds and
    returns a fresh array (one that was not on the heap before the call)
    of the length of [theta] whose entries are the owning block's
    gradient values, and zero where no block owns the index; [theta]
    itself, every other array and the model are left as they were. *)
Lemma lnp_prior_grad_scatter s theta th :
  constructed (self s) →
  partitions (theta_desc (self s)) →
  heap s !! theta = Some th →
  length th = ndim (self s) →
  gradients_defined (theta_desc (self s)) th →
  ∃ grad g s',
    lnp_prior_grad theta s = (Ok grad, s')
    ∧ heap s' !! grad = Some g
    ∧ length g = ndim (self s)
    ∧ (∀ p v i, (p, v) ∈ theta_desc (self s) → owns v i →
         g !! i = block_gradient th v !! (i - i0 v))
    ∧ (∀ i, i < length th → Forall (λ pv, ¬ owns pv.2 i) (theta_desc (self s)) →
         g !! i = Some zero)
    ∧ heap s !! grad = None
    ∧ heap s' !! theta = Some th
    ∧ (∀ l, l ≠ grad → heap s' !! l = heap s !! l)
    ∧ self s' = self s.
Proof.
  intros Hc Hp Hth Hlen Hdef.
  pose proof Hdef as Hdef'. unfold gradients_defined in Hdef.
  set (l := fresh (dom (heap s))).
  assert (heap s !! l = None) as Hl.
  { apply not_elem_of_dom. apply is_fresh. }
  assert (l ≠ theta) as Hne by congruence.
  assert (Forall (λ v, length (block_gradient th v)
                       = length (slice (i0 v) (i0 v + N v) th))
            (theta_desc (self s)).*2) as Hshape.
  { apply Forall_fmap. eapply Forall_impl; [apply Hdef|]. by intros ? [_ ?]. }
  exists l, (foldl (scatter th) (zeros_like th) (theta_desc (self s)).*2).
  eexists. split_and!.
  - unfold lnp_prior_grad.
    unfold bind at 1, load at 1. rewrite Hth.
    unfold bind at 1, alloc at 1. fold l.
    unfold bind at 1, get_self at 1. cbn [self].
    unfold bind at 1.
    rewrite (lnp_prior_grad_loop theta th l _ _ (zeros_like th)); cbn [heap].
    + unfold ret. done.
    + by rewrite lookup_insert_ne.
    + by rewrite lookup_insert_eq.
    + done.
    + unfold zeros_like, zeros. by rewrite length_replicate.
    + exact Hdef'.
  - cbn. by rewrite insert_insert_eq, lookup_insert_eq.
  - rewrite length_foldl_scatter; [|unfold zeros_like, zeros; by rewrite length_replicate|done].
    unfold zeros_like, zeros. by rewrite length_replicate.
  - intros p v i Hin Ho.
    destruct (decide (i < length th)) as [Hi|Hi].
    2:{ rewrite (proj2 (lookup_ge_None _ i)).
        - symmetry. apply lookup_ge_None.
          rewrite Forall_forall in Hdef. destruct (Hdef _ Hin) as [_ Hg].
          cbn [snd] in Hg. rewrite Hg, length_slice. unfold owns in Ho. lia.
        - rewrite length_foldl_scatter; [|unfold zeros_like, zeros; by rewrite length_replicate|done].
          unfold zeros_like, zeros. rewrite length_replicate. lia. }
    destruct Hp as (_ & _ & Hone). rewrite Forall_seq in Hone.
    specialize (Hone i ltac:(rewrite <-Hc; lia)).
    destruct (filter_one_split _ _ _ Hone Hin Ho) as (l1 & l2 & Heq & H1 & H2).
    rewrite Heq in Hshape |- *. rewrite fmap_app, fmap_cons in Hshape |- *.
    apply Forall_app in Hshape as [Hs1 Hs2]. apply Forall_cons in Hs2 as [Hsv Hs2].
    rewrite foldl_app. cbn [foldl snd].
    rewrite lookup_foldl_scatter_other.
    + rewrite lookup_scatter; [by rewrite decide_True| |done].
      rewrite length_foldl_scatter; [|unfold zeros_like, zeros; by rewrite length_replicate|done].
      unfold zeros_like, zeros. by rewrite length_replicate.
    + rewrite length_scatter; [| |done].
      * rewrite length_foldl_scatter; [|unfold zeros_like, zeros; by rewrite length_replicate|done].
        unfold zeros_like, zeros. by rewrite length_replicate.
      * rewrite length_foldl_scatter; [|unfold zeros_like, zeros; by rewrite length_replicate|done].
        unfold zeros_like, zeros. by rewrite length_replicate.
    + done.
    + by apply Forall_fmap.
  - intros i Hi Hno.
    rewrite lookup_foldl_scatter_other.
    + unfold zeros_like, zeros. by apply lookup_replicate_2.
    + unfold zeros_like, zeros. by rewrite length_replicate.
    + done.
    + by apply Forall_fmap.
  - exact Hl.
  - cbn. rewrite insert_insert_eq. by rewrite lookup_insert_ne.
  - intros l' Hl'. cbn. rewrite insert_insert_eq. by rewrite lookup_insert_ne.
  - done.
Qed.

(** C3 (code bug): with a gradient-bearing block [mass] and a block
    [jitter] that has no ['prior_gradient_function'], [lnp_prior_grad]
    raises [KeyError] instead of leaving zeros at the index of [jitter],
    although the result is initialised with zeros and the caller's
    comment says that it defaults to 0 if no gradients are defined. *)
Theorem lnp_prior_grad_needs_gradients :
  (lnp_prior_grad 1%positive (start_state two_blocks [q 1 1; q 2 1; q 3 1])).1
  = Raise KeyError.
Proof. vm_compute. reflexivity. Qed.

(* --------------------------------------------------------------------- *)
(** *** Reflection: the loop on arrays *)
(* --------------------------------------------------------------------- *)

Section masked.
Context {A : Type}.
Implicit Types (a : list A) (mask : list bool) (f : A → A).

Lemma length_update_masked start stop mask f a :
  length mask = length (slice start stop a) →
  length (update_masked start stop mask f a) = length a.
Proof.
  intros Hm. unfold update_masked.
  rewrite !length_app, length_take, length_zip_with, length_drop, Hm.
  rewrite length_slice. lia.
Qed.

Lemma lookup_update_masked start stop mask f a i :
  length mask = length (slice start stop a) →
  update_masked start stop mask f a !! i
  = (λ x, if bool_decide (start ≤ i < stop) && default false (mask !! (i - start))
          then f x else x) <$> a !! i.
Proof.
  intros Hm.
  destruct (decide (i < length a)) as [Hi|Hi].
  2:{ rewrite (proj2 (lookup_ge_None a i)) by lia.
      apply lookup_ge_None. rewrite length_update_masked by done. lia. }
  pose proof Hm as Hm'. rewrite length_slice in Hm'.
  unfold update_masked.
  destruct (decide (i < start)) as [Hs|Hs].
  { rewrite lookup_app_l by (rewrite length_take; lia).
    rewrite lookup_take_lt by done.
    rewrite bool_decide_eq_false_2 by lia. by destruct (a !! i). }
  rewrite lookup_app_r by (rewrite length_take; lia). rewrite length_take.
  replace (start `min` length a) with start by lia.
  destruct (decide (i < stop)) as [Ht|Ht].
  - rewrite lookup_app_l by (rewrite length_zip_with, Hm, length_slice; lia).
    rewrite lookup_zip_with, lookup_slice. rewrite decide_True by lia.
    replace (start + (i - start)) with i by lia.
    rewrite bool_decide_eq_true_2 by lia.
    destruct (mask !! (i - start)) as [m|] eqn:E.
    + simpl. by destruct (a !! i).
    + apply lookup_ge_None in E. lia.
  - rewrite lookup_app_r by (rewrite length_zip_with, Hm, length_slice; lia).
    rewrite length_zip_with, Hm, length_slice, lookup_drop.
    rewrite bool_decide_eq_false_2 by lia.
    replace (start `max` stop + _) with i by lia.
    by destruct (a !! i).
Qed.
End masked.

Lemma lookup_mask (g : value → bool) v (th : list value) i :
  bool_decide (i0 v ≤ i < i0 v + N v)
    && default false ((g <$> slice (i0 v) (i0 v + N v) th) !! (i - i0 v))
  = bool_decide (owns v i) && default false (g <$> th !! i).
Proof.
  unfold owns. case_bool_decide as Ho; [|done]. cbn [andb].
  rewrite list_lookup_fmap, lookup_slice. rewrite decide_True by lia.
  by replace (i0 v + (i - i0 v)) with i by lia.
Qed.

Lemma length_mask {A} (g : value → bool) start stop (th : list value) (a : list A) :
  length a = length th →
  length (g <$> slice start stop th) = length (slice start stop a).
Proof. intros Hlen. rewrite length_fmap. by apply slice_length_irrel. Qed.

Section rules.
Implicit Types (a : arrays) (v : block) (oob : bool).

Lemma upper_rule_theta_length a oob v :
  length (a_theta (upper_rule v (a, oob)).1) = length (a_theta a).
Proof.
  unfold upper_rule. destruct (upper v); [|done]. cbn.
  apply length_update_masked. by apply length_mask.
Qed.

Lemma lower_rule_theta_length a oob v :
  length (a_theta (lower_rule v (a, oob)).1) = length (a_theta a).
Proof.
  unfold lower_rule. destruct (lower v); [|done]. cbn.
  apply length_update_masked. by apply length_mask.
Qed.

Lemma upper_rule_shape a oob v :
  same_shape a → same_shape (upper_rule v (a, oob)).1.
Proof.
  intros [Hs Hc]. unfold upper_rule. destruct (upper v); [|done].
  split; cbn; rewrite !length_update_masked; try done; by apply length_mask.
Qed.

Lemma lower_rule_shape a oob v :
  same_shape a → same_shape (lower_rule v (a, oob)).1.
Proof.
  intros [Hs Hc]. unfold lower_rule. destruct (lower v); [|done].
  split; cbn; rewrite !length_update_masked; try done; by apply length_mask.
Qed.

Lemma upper_rule_cell a oob v i :
  same_shape a →
  cell (upper_rule v (a, oob)).1 i
  = (if decide (owns v i) then upper_comp v else id) <$> cell a i.
Proof.
  intros [Hs Hc]. unfold upper_rule, upper_comp, cell.
  destruct (upper v) as [u|].
  2:{ cbn. destruct (a_theta a !! i), (a_sign a !! i), (a_count a !! i);
        try done; by case_decide. }
  cbn [fst a_theta a_sign a_count].
  rewrite !lookup_update_masked by (by apply length_mask).
  rewrite !lookup_mask.
  destruct (a_theta a !! i) as [x|]; [|done].
  destruct (a_sign a !! i) as [m|]; [|done].
  destruct (a_count a !! i) as [c|]; [|done].
  cbn. case_decide.
  - rewrite bool_decide_eq_true_2 by done. cbn. by destruct (gt x u).
  - by rewrite bool_decide_eq_false_2 by done.
Qed.

Lemma lower_rule_cell a oob v i :
  same_shape a →
  cell (lower_rule v (a, oob)).1 i
  = (if decide (owns v i) then lower_comp v else id) <$> cell a i.
Proof.
  intros [Hs Hc]. unfold lower_rule, lower_comp, cell.
  destruct (lower v) as [l|].
  2:{ cbn. destruct (a_theta a !! i), (a_sign a !! i), (a_count a !! i);
        try done; by case_decide. }
  cbn [fst a_theta a_sign a_count].
  rewrite !lookup_update_masked by (by apply length_mask).
  rewrite !lookup_mask.
  destruct (a_theta a !! i) as [x|]; [|done].
  destruct (a_sign a !! i) as [m|]; [|done].
  destruct (a_count a !! i) as [c|]; [|done].
  cbn. case_decide.
  - rewrite bool_decide_eq_true_2 by done. cbn. by destruct (lt x l).
  - by rewrite bool_decide_eq_false_2 by done.
Qed.

Lemma scan_block_shape a oob v :
  same_shape a → same_shape (scan_block (a, oob) v).1.
Proof.
  intros Hs. unfold scan_block.
  destruct (upper_rule v (a, oob)) as [a1 oob1] eqn:E.
  apply lower_rule_shape. change a1 with (a1, oob1).1. rewrite <-E.
  by apply upper_rule_shape.
Qed.

Lemma scan_block_theta_length a oob v :
  length (a_theta (scan_block (a, oob) v).1) = length (a_theta a).
Proof.
  unfold scan_block.
  destruct (upper_rule v (a, oob)) as [a1 oob1] eqn:E.
  rewrite lower_rule_theta_length. change a1 with (a1, oob1).1. rewrite <-E.
  apply upper_rule_theta_length.
Qed.

Lemma scan_block_cell a oob v i :
  same_shape a →
  cell (scan_block (a, oob) v).1 i
  = (if decide (owns v i) then lower_comp v ∘ upper_comp v else id) <$> cell a i.
Proof.
  intros Hs. unfold scan_block.
  destruct (upper_rule v (a, oob)) as [a1 oob1] eqn:E.
  assert (a1 = (upper_rule v (a, oob)).1) as -> by (by rewrite E).
  rewrite lower_rule_cell by (by apply upper_rule_shape).
  rewrite upper_rule_cell by done.
  destruct (cell a i); [|done]. cbn. by case_decide.
Qed.
End rules.

Lemma any_true (mask : list bool) : any mask = true ↔ ∃ k, mask !! k = Some true.
Proof.
  unfold any. rewrite existsb_exists. split.
  - intros (b & Hin & Hb). unfold id in Hb. subst b.
    apply list_elem_of_In, list_elem_of_lookup in Hin. done.
  - intros [k Hk]. exists true. split; [|done].
    apply list_elem_of_In, list_elem_of_lookup. by exists k.
Qed.

Lemma any_false_lookup (mask : list bool) k :
  any mask = false → default false (mask !! k) = false.
Proof.
  intros Hany. destruct (mask !! k) as [[]|] eqn:E; [|done..].
  assert (any mask = true) by (apply any_true; by exists k). congruence.
Qed.

Lemma update_masked_quiet {A} start stop (mask : list bool) (f : A → A) (a : list A) :
  length mask = length (slice start stop a) →
  any mask = false →
  update_masked start stop mask f a = a.
Proof.
  intros Hlen Hany. apply list_eq. intros i.
  rewrite lookup_update_masked by done.
  rewrite any_false_lookup by done. rewrite andb_false_r.
  by destruct (a !! i).
Qed.

Lemma any_mask_true (g : value → bool) v (th : list value) :
  any (g <$> slice (i0 v) (i0 v + N v) th) = true
  ↔ ∃ i x, owns v i ∧ th !! i = Some x ∧ g x = true.
Proof.
  rewrite any_true. split.
  - intros [k Hk]. rewrite list_lookup_fmap, lookup_slice in Hk.
    case_decide as Hlt; [|done].
    destruct (th !! (i0 v + k)) as [x|] eqn:E; [|done].
    exists (i0 v + k), x. unfold owns. split_and!; [lia..|done|].
    cbn in Hk. congruence.
  - intros (i & x & Ho & Hx & Hg). exists (i - i0 v).
    unfold owns in Ho.
    rewrite list_lookup_fmap, lookup_slice. rewrite decide_True by lia.
    replace (i0 v + (i - i0 v)) with i by lia. rewrite Hx. cbn. by rewrite Hg.
Qed.

Section quiet.
Implicit Types (a : arrays) (v : block) (oob : bool).

Lemma upper_rule_oob a oob v :
  (upper_rule v (a, oob)).2
  = oob || match upper v with
           | Some u => any ((λ x, gt x u) <$> slice (i0 v) (i0 v + N v) (a_theta a))
           | None => false
           end.
Proof. unfold upper_rule. destruct (upper v); cbn; [done|by rewrite orb_false_r]. Qed.

Lemma lower_rule_oob a oob v :
  (lower_rule v (a, oob)).2
  = oob || match lower v with
           | Some l => any ((λ x, lt x l) <$> slice (i0 v) (i0 v + N v) (a_theta a))
           | None => false
           end.
Proof. unfold lower_rule. destruct (lower v); cbn; [done|by rewrite orb_false_r]. Qed.

Lemma upper_rule_quiet a oob v :
  same_shape a →
  (∀ u, upper v = Some u →
     any ((λ x, gt x u) <$> slice (i0 v) (i0 v + N v) (a_theta a)) = false) →
  upper_rule v (a, oob) = (a, oob).
Proof.
  intros [Hs Hc] Hq. unfold upper_rule. destruct (upper v) as [u|]; [|done].
  specialize (Hq u eq_refl). cbn [fst snd].
  rewrite !update_masked_quiet by (done || by apply length_mask).
  rewrite Hq, orb_false_r. by destruct a.
Qed.

Lemma lower_rule_quiet a oob v :
  same_shape a →
  (∀ l, lower v = Some l →
     any ((λ x, lt x l) <$> slice (i0 v) (i0 v + N v) (a_theta a)) = false) →
  lower_rule v (a, oob) = (a, oob).
Proof.
  intros [Hs Hc] Hq. unfold lower_rule. destruct (lower v) as [l|]; [|done].
  specialize (Hq l eq_refl). cbn [fst snd].
  rewrite !update_masked_quiet by (done || by apply length_mask).
  rewrite Hq, orb_false_r. by destruct a.
Qed.

Lemma quiet_any_upper v th u :
  quiet v th → upper v = Some u →
  any ((λ x, gt x u) <$> slice (i0 v) (i0 v + N v) th) = false.
Proof.
  intros Hq Hu. apply not_true_is_false. intros (i & x & Ho & Hx & Hg)%any_mask_true.
  destruct (Hq i x Ho Hx) as [H1 _]. rewrite (H1 u Hu) in Hg. done.
Qed.

Lemma quiet_any_lower v th l :
  quiet v th → lower v = Some l →
  any ((λ x, lt x l) <$> slice (i0 v) (i0 v + N v) th) = false.
Proof.
  intros Hq Hl. apply not_true_is_false. intros (i & x & Ho & Hx & Hg)%any_mask_true.
  destruct (Hq i x Ho Hx) as [_ H2]. rewrite (H2 l Hl) in Hg. done.
Qed.

Lemma scan_block_quiet a oob v :
  same_shape a → quiet v (a_theta a) → scan_block (a, oob) v = (a, oob).
Proof.
  intros Hs Hq. unfold scan_block.
  rewrite upper_rule_quiet; [|done|by intros; apply quiet_any_upper].
  rewrite lower_rule_quiet; [done|done|by intros; apply quiet_any_lower].
Qed.

Lemma scan_block_false a oob v :
  same_shape a →
  (scan_block (a, oob) v).2 = false →
  oob = false ∧ quiet v (a_theta a).
Proof.
  intros Hs Hf. unfold scan_block in Hf.
  destruct (upper_rule v (a, oob)) as [a1 oob1] eqn:E1.
  rewrite lower_rule_oob in Hf. apply orb_false_elim in Hf as [Hoob1 Hlow].
  assert (oob1 = (upper_rule v (a, oob)).2) as Ho1 by (by rewrite E1).
  rewrite upper_rule_oob, Hoob1 in Ho1. symmetry in Ho1.
  apply orb_false_elim in Ho1 as [-> Hup]. subst oob1.
  assert (upper_rule v (a, false) = (a, false)) as Hid.
  { apply upper_rule_quiet; [done|]. intros u Hu. by rewrite Hu in Hup. }
  rewrite Hid in E1. injection E1 as <-.
  split; [done|]. intros i x Ho Hx. split.
  - intros u Hu. rewrite Hu in Hup. apply not_true_is_false. intros Hg.
    assert (any ((λ x, gt x u) <$> slice (i0 v) (i0 v + N v) (a_theta a)) = true).
    { apply any_mask_true. by exists i, x. }
    congruence.
  - intros l Hl. rewrite Hl in Hlow. apply not_true_is_false. intros Hg.
    assert (any ((λ x, lt x l) <$> slice (i0 v) (i0 v + N v) (a_theta a)) = true).
    { apply any_mask_true. by exists i, x. }
    congruence.
Qed.

Lemma foldl_scan_block_shape blocks a oob :
  same_shape a → same_shape (foldl scan_block (a, oob) blocks).1.
Proof.
  revert a oob. induction blocks as [|v blocks IH]; intros a oob Hs; [done|].
  cbn [foldl]. destruct (scan_block (a, oob) v) as [a1 oob1] eqn:E.
  apply IH. change a1 with (a1, oob1).1. rewrite <-E. by apply scan_block_shape.
Qed.

Lemma foldl_scan_block_theta_length blocks a oob :
  length (a_theta (foldl scan_block (a, oob) blocks).1) = length (a_theta a).
Proof.
  revert a oob. induction blocks as [|v blocks IH]; intros a oob; [done|].
  cbn [foldl]. destruct (scan_block (a, oob) v) as [a1 oob1] eqn:E.
  rewrite IH. change a1 with (a1, oob1).1. rewrite <-E.
  apply scan_block_theta_length.
Qed.

Lemma foldl_scan_block_quiet blocks a oob :
  same_shape a →
  Forall (λ v, quiet v (a_theta a)) blocks →
  foldl scan_block (a, oob) blocks = (a, oob).
Proof.
  intros Hs. induction blocks as [|v blocks IH]; intros Hq; [done|].
  apply Forall_cons in Hq as [Hv Hq]. cbn [foldl].
  rewrite scan_block_quiet by done. by apply IH.
Qed.

Lemma foldl_scan_block_false blocks a oob :
  same_shape a →
  (foldl scan_block (a, oob) blocks).2 = false →
  oob = false
  ∧ Forall (λ v, quiet v (a_theta a)) blocks
  ∧ foldl scan_block (a, oob) blocks = (a, oob).
Proof.
  revert a oob. induction blocks as [|v blocks IH]; intros a oob Hs Hf.
  - cbn in *. by subst.
  - cbn [foldl] in *.
    destruct (scan_block (a, oob) v) as [a1 oob1] eqn:E.
    assert (same_shape a1) as Hs1.
    { change a1 with (a1, oob1).1. rewrite <-E. by apply scan_block_shape. }
    destruct (IH a1 oob1 Hs1 Hf) as (-> & Hq & Hid).
    assert ((scan_block (a, oob) v).2 = false) as Hv by (by rewrite E).
    apply scan_block_false in Hv as [-> Hqv]; [|done].
    rewrite scan_block_quiet in E by done. injection E as <-.
    split_and!; [done|by constructor|done].
Qed.
End quiet.

Section run.
Variables (theta sign : loc).
Hypothesis Hne : theta ≠ sign.
Implicit Types (a : arrays) (s : state).

Lemma written_holds s a : holds (written s theta sign a) theta sign a.
Proof using Hne.
  unfold holds, written. cbn. split.
  - rewrite lookup_insert_ne by done. by rewrite lookup_insert_eq.
  - by rewrite lookup_insert_eq.
Qed.

Lemma written_written s a1 a2 :
  written (written s theta sign a1) theta sign a2 = written s theta sign a2.
Proof using Hne.
  unfold written, with_heap. cbn. f_equal.
  apply map_eq. intros l.
  rewrite !lookup_insert. repeat case_decide; congruence.
Qed.

Lemma written_id s a : holds s theta sign a → written s theta sign a = s.
Proof.
  intros [Ht Hs]. unfold written.
  rewrite (insert_id _ theta) by done. rewrite insert_id by done.
  apply with_heap_id.
Qed.

Lemma check_upper_run s a oob v :
  holds s theta sign a →
  check_upper theta sign v oob s
  = (Ok (upper_rule v (a, oob)).2, written s theta sign (upper_rule v (a, oob)).1).
Proof using Hne.
  intros Hh. pose proof Hh as [Ht Hs]. unfold check_upper, upper_rule.
  destruct (upper v) as [u|].
  2:{ cbn. unfold ret. by rewrite written_id. }
  unfold bind at 1, load at 1. rewrite Ht.
  unfold bind at 1, store at 1.
  unfold bind at 1, load at 1. cbn [heap].
  rewrite lookup_insert_ne by done. rewrite Hs.
  unfold bind at 1, store at 1. unfold ret. cbn. done.
Qed.

Lemma check_lower_run s a oob v :
  holds s theta sign a →
  check_lower theta sign v oob s
  = (Ok (lower_rule v (a, oob)).2, written s theta sign (lower_rule v (a, oob)).1).
Proof using Hne.
  intros Hh. pose proof Hh as [Ht Hs]. unfold check_lower, lower_rule.
  destruct (lower v) as [l|].
  2:{ cbn. unfold ret. by rewrite written_id. }
  unfold bind at 1, load at 1. rewrite Ht.
  unfold bind at 1, store at 1.
  unfold bind at 1, load at 1. cbn [heap].
  rewrite lookup_insert_ne by done. rewrite Hs.
  unfold bind at 1, store at 1. unfold ret. cbn. done.
Qed.

Lemma scan_loop_run (desc : list (string * block)) s a oob :
  holds s theta sign a →
  for_acc desc oob (λ oob pv,
    oob <- check_upper theta sign pv.2 oob ;;
    check_lower theta sign pv.2 oob) s
  = (Ok (foldl scan_block (a, oob) desc.*2).2,
     written s theta sign (foldl scan_block (a, oob) desc.*2).1).
Proof using Hne.
  revert s a oob. induction desc as [|[p v] desc IH]; intros s a oob Hh.
  - cbn. unfold ret. by rewrite written_id.
  - cbn [for_acc]. unfold bind at 1. unfold bind at 1. cbn [snd].
    rewrite (check_upper_run _ a) by done.
    destruct (upper_rule v (a, oob)) as [a1 oob1] eqn:E1. cbn [fst snd].
    rewrite (check_lower_run _ a1) by apply written_holds.
    rewrite written_written.
    destruct (lower_rule v (a1, oob1)) as [a2 oob2] eqn:E2. cbn [fst snd].
    rewrite (IH _ a2) by apply written_holds.
    rewrite written_written.
    rewrite fmap_cons. cbn [foldl snd].
    assert (scan_block (a, oob) v = (a2, oob2)) as ->
      by (unfold scan_block; by rewrite E1, E2).
    done.
Qed.

Lemma scan_run s a :
  holds s theta sign a →
  scan theta sign s
  = (Ok (scan_arrays (theta_desc (self s)) a).2,
     written s theta sign (scan_arrays (theta_desc (self s)) a).1).
Proof using Hne.
  intros Hh. unfold scan, scan_arrays. unfold bind at 1, get_self at 1.
  by apply scan_loop_run.
Qed.

Lemma while_oob_run fuel s a :
  holds s theta sign a →
  same_shape a →
  while_oob fuel theta sign s
  = (λ a', (Ok false, written s theta sign a'))
      <$> while_arrays fuel (theta_desc (self s)) a.
Proof using Hne.
  revert s a. induction fuel as [|fuel IH]; intros s a Hh Hs; [done|].
  cbn [while_oob while_arrays]. rewrite (scan_run _ a) by done.
  destruct (scan_arrays (theta_desc (self s)) a) as [a1 oob1] eqn:E. cbn [fst snd].
  destruct oob1.
  - rewrite (IH _ a1).
    + change (self (written s theta sign a1)) with (self s).
      destruct (while_arrays fuel (theta_desc (self s)) a1); [|done].
      cbn [fmap option_fmap option_map]. by rewrite written_written.
    + apply written_holds.
    + change a1 with (a1, true).1. rewrite <-E. by apply foldl_scan_block_shape.
  - done.
Qed.
End run.

Lemma initial_shape th : same_shape (initial th).
Proof.
  unfold same_shape, initial, ones_like. cbn. by rewrite !length_replicate.
Qed.

Lemma check_constrained_run fuel theta s th :
  heap s !! theta = Some th →
  check_constrained fuel theta s
  = (λ a', (Ok (theta, fresh (dom (heap s)), false),
            written s theta (fresh (dom (heap s))) a'))
      <$> while_arrays fuel (theta_desc (self s)) (initial th).
Proof.
  intros Hth. set (sign := fresh (dom (heap s))).
  assert (heap s !! sign = None) as Hfresh.
  { apply not_elem_of_dom. apply is_fresh. }
  assert (theta ≠ sign) as Hne by congruence.
  unfold check_constrained. unfold bind at 1, load at 1. rewrite Hth.
  unfold alloc. fold sign.
  rewrite (while_oob_run theta sign Hne _ _ (initial th)).
  - cbn [heap self model_calls].
    destruct (while_arrays fuel (theta_desc (self s)) (initial th)) as [a'|]; [|done].
    cbn. do 2 f_equal. unfold written, with_heap. cbn. f_equal.
    apply map_eq. intros l.
    rewrite !lookup_insert. repeat case_decide; congruence.
  - split; cbn.
    + by rewrite lookup_insert_ne.
    + by rewrite lookup_insert_eq.
  - apply initial_shape.
Qed.

Lemma Qlt_bool_true x y : Qlt_bool x y = true ↔ (x < y)%Q.
Proof.
  unfold Qlt_bool. rewrite negb_true_iff. split.
  - intros H. apply Qnot_le_lt. intros Hle. apply Qle_bool_iff in Hle. congruence.
  - intros H. apply not_true_is_false. intros Hle%Qle_bool_iff.
    by apply Qlt_not_le in H.
Qed.

Lemma Qlt_bool_false x y : Qlt_bool x y = false ↔ (y <= x)%Q.
Proof.
  unfold Qlt_bool. rewrite negb_false_iff. apply Qle_bool_iff.
Qed.

Lemma flip_minus_one_pow n : flip (minus_one_pow n) = minus_one_pow (S n).
Proof.
  unfold minus_one_pow, flip. rewrite Nat.even_succ, <-Nat.negb_even.
  by destruct (Nat.even n).
Qed.

Lemma partitions_disjoint desc : partitions desc → disjoint_slices desc.
Proof.
  intros (_ & Hin & Hone) i. rewrite Forall_seq in Hone.
  destruct (decide (i < desc_ndim desc)) as [Hi|Hi].
  - rewrite Hone by lia. done.
  - unfold owners. destruct (filter _ desc) as [|pv ?] eqn:E; [cbn; lia|].
    assert (pv ∈ filter (λ pv : string * block, owns pv.2 i) desc) as Hpv.
    { rewrite E. apply list_elem_of_here. }
    apply list_elem_of_filter in Hpv as [Ho Hpv].
    rewrite Forall_forall in Hin. specialize (Hin pv Hpv).
    unfold owns in Ho. lia.
Qed.

Lemma owner_split desc p v i :
  disjoint_slices desc → (p, v) ∈ desc → owns v i →
  ∃ l1 l2, desc = l1 ++ (p, v) :: l2
    ∧ Forall (λ v', ¬ owns v' i) l1.*2 ∧ Forall (λ v', ¬ owns v' i) l2.*2.
Proof.
  intros Hd Hin Ho. specialize (Hd i).
  assert ((p, v) ∈ owners desc i) as Hf by (by apply list_elem_of_filter).
  assert (length (owners desc i) = 1) as Hone.
  { destruct (owners desc i); [by apply elem_of_nil in Hf|]. cbn in *. lia. }
  destruct (filter_one_split (λ pv : string * block, owns pv.2 i) desc (p, v) Hone Hin Ho)
    as (l1 & l2 & -> & H1 & H2).
  exists l1, l2. split_and!; [done|by apply Forall_fmap..].
Qed.

Section cells.
Implicit Types (a : arrays) (v : block) (oob : bool).

Lemma cell_theta a i x :
  same_shape a → a_theta a !! i = Some x → ∃ m c, cell a i = Some (x, m, c).
Proof.
  intros [Hs Hc] Hx. unfold cell. rewrite Hx.
  pose proof (lookup_lt_Some _ _ _ Hx) as Hlt.
  destruct (a_sign a !! i) as [m|] eqn:Em.
  2:{ apply lookup_ge_None in Em. lia. }
  destruct (a_count a !! i) as [c|] eqn:Ec.
  2:{ apply lookup_ge_None in Ec. lia. }
  by exists m, c.
Qed.

Lemma cell_inv a i x m c :
  cell a i = Some (x, m, c) →
  a_theta a !! i = Some x ∧ a_sign a !! i = Some m ∧ a_count a !! i = Some c.
Proof.
  unfold cell. destruct (a_theta a !! i), (a_sign a !! i), (a_count a !! i);
    try done. by intros [= -> -> ->].
Qed.

Lemma foldl_scan_block_cell_parity blocks a oob :
  same_shape a → parity a → parity (foldl scan_block (a, oob) blocks).1.
Proof.
  revert a oob. induction blocks as [|v blocks IH]; intros a oob Hs Hp; [done|].
  cbn [foldl]. destruct (scan_block (a, oob) v) as [a1 oob1] eqn:E.
  assert (a1 = (scan_block (a, oob) v).1) as Ha1 by (by rewrite E).
  apply IH; [rewrite Ha1; by apply scan_block_shape|].
  intros i x m c Hc. rewrite Ha1, scan_block_cell in Hc by done.
  destruct (cell a i) as [[[x0 m0] c0]|] eqn:E0; [|done].
  specialize (Hp i x0 m0 c0 E0). subst m0.
  cbn [fmap option_fmap option_map] in Hc.
  case_decide; [|by injection Hc as <- <- <-].
  unfold lower_comp, upper_comp, compose in Hc.
  destruct (upper v) as [u|], (lower v) as [l|];
    repeat (match type of Hc with context [if ?b then _ else _] => destruct b end);
    injection Hc as <- <- <-; try done.
  all: unfold minus_one_pow;
    rewrite ?Nat.even_succ_succ, ?Nat.even_succ, <-?Nat.negb_even;
    by destruct (Nat.even c0).
Qed.
End cells.

(** What holds whenever the loop comes to an end. *)
Lemma while_arrays_exit fuel desc a a' :
  same_shape a → parity a →
  while_arrays fuel desc a = Some a' →
  same_shape a' ∧ parity a'
  ∧ length (a_theta a') = length (a_theta a)
  ∧ Forall (λ v, quiet v (a_theta a')) desc.*2.
Proof.
  revert a. induction fuel as [|fuel IH]; intros a Hs Hp Hrun; [done|].
  cbn [while_arrays] in Hrun.
  destruct (scan_arrays desc a) as [a1 oob1] eqn:E.
  assert (a1 = (scan_arrays desc a).1) as Ha1 by (by rewrite E).
  assert (same_shape a1) as Hs1 by (rewrite Ha1; by apply foldl_scan_block_shape).
  assert (parity a1) as Hp1 by (rewrite Ha1; by apply foldl_scan_block_cell_parity).
  assert (length (a_theta a1) = length (a_theta a)) as Hl1.
  { rewrite Ha1. apply foldl_scan_block_theta_length. }
  destruct oob1.
  - destruct (IH a1 Hs1 Hp1 Hrun) as (? & ? & Hl & ?).
    split_and!; [done..|congruence|done].
  - injection Hrun as <-. split_and!; [done..|].
    assert ((foldl scan_block (a, false) desc.*2).2 = false) as Hf.
    { fold (scan_arrays desc a). by rewrite E. }
    apply foldl_scan_block_false in Hf as (_ & Hq & Hid); [|done].
    fold (scan_arrays desc a) in Hid. rewrite E in Hid. by injection Hid as ->.
Qed.

Lemma initial_parity th : parity (initial th).
Proof.
  intros i x m c (_ & Hm & Hc)%cell_inv. cbn in Hm, Hc.
  unfold ones_like in Hm.
  apply lookup_replicate in Hm as [-> _]. apply lookup_replicate in Hc as [-> _].
  done.
Qed.

Lemma parity_lookup a i :
  same_shape a → parity a → a_sign a !! i = minus_one_pow <$> a_count a !! i.
Proof.
  intros [Hs Hc] Hp.
  destruct (a_theta a !! i) as [x|] eqn:Ex.
  - destruct (cell_theta a i x (conj Hs Hc) Ex) as (m & c & Hcell).
    pose proof (Hp _ _ _ _ Hcell) as ->.
    apply cell_inv in Hcell as (_ & -> & ->). done.
  - apply lookup_ge_None in Ex.
    rewrite (proj2 (lookup_ge_None (a_sign a) i)) by lia.
    by rewrite (proj2 (lookup_ge_None (a_count a) i)) by lia.
Qed.

Lemma quiet_in_bounds v x :
  (∀ u, upper v = Some u → gt (Fin x) u = false)
  ∧ (∀ l, lower v = Some l → lt (Fin x) l = false) →
  in_bounds v (Fin x).
Proof.
  intros [Hu Hl]. exists x. split_and!; [done|..].
  - intros u Hv. specialize (Hu _ Hv). cbn in Hu. by apply Qlt_bool_false.
  - intros l Hv. specialize (Hl _ Hv). cbn in Hl. by apply Qlt_bool_false.
Qed.

(* --------------------------------------------------------------------- *)
(** *** Reflection: a loop that never ends (C6), the flag (C9), the rules (C4) *)
(* --------------------------------------------------------------------- *)

(** A component can be reflected more than once: 2.5 is reflected twice
    into [0, 1], and the sign is back to +1. *)
Example reflected_twice :
  while_arrays 2 unit_interval (initial [q 5 2])
  = Some (Arrays [q 1 2] [q 1 1] [2]).
Proof. reflexivity. Qed.

Lemma degenerate_loops fuel c :
  while_arrays fuel degenerate (Arrays [q 1 1] [q 1 1] [c]) = None.
Proof.
  revert c. induction fuel as [|fuel IH]; intros c; [done|].
  change (while_arrays (S fuel) degenerate (Arrays [q 1 1] [q 1 1] [c]))
    with (while_arrays fuel degenerate (Arrays [q 1 1] [q 1 1] [S (S c)])).
  apply IH.
Qed.

(** C6 (as stated) fails: with the degenerate interval [0, 0] and the
    position 1 no number of passes ends the call, and nothing is raised. *)
Lemma degenerate_bound_never_returns :
  ¬ ∃ fuel r, check_constrained fuel 1%positive (start_state degenerate [q 1 1]) = Some r.
Proof.
  intros (fuel & r & Hr).
  rewrite (check_constrained_run fuel _ _ [q 1 1]) in Hr by done.
  change (theta_desc (self (start_state degenerate [q 1 1]))) with degenerate in Hr.
  change (initial [q 1 1]) with (Arrays [q 1 1] [q 1 1] [0]) in Hr.
  by rewrite degenerate_loops in Hr.
Qed.

Lemma while_oob_false fuel theta sign s b s' :
  while_oob fuel theta sign s = Some (Ok b, s') → b = false.
Proof.
  revert s. induction fuel as [|fuel IH]; intros s; [done|].
  cbn [while_oob]. destruct (scan theta sign s) as [[[]|e] s1]; try done.
  - apply IH.
  - by intros [= <- _].
Qed.

(** The flag [check_constrained] returns is [False] on every path. *)
Lemma check_constrained_flag_false fuel theta s t sg b s' :
  check_constrained fuel theta s = Some (Ok (t, sg, b), s') → b = false.
Proof.
  unfold check_constrained.
  destruct ((th <- load theta ;; alloc (ones_like th)) s) as [[sign|e] s1]; [|done].
  destruct (while_oob fuel theta sign s1) as [[[b'|e] s2]|] eqn:E; try done.
  intros [= _ _ <- _]. by eapply while_oob_false.
Qed.

(** C9 (code bug): with the upper bound 1 and the position 2 one
    reflection occurs (the position becomes 0, the sign -1), and the flag
    returned is [False]. *)
Theorem check_constrained_flag_after_reflection :
  ∃ s',
    check_constrained 2 1%positive (start_state upper_only [q 2 1])
    = Some (Ok (1%positive, 2%positive, false), s')
    ∧ heap s' !! 1%positive = Some [q 0 1]
    ∧ heap s' !! 2%positive = Some [q (-1) 1].
Proof. eexists. split_and!; [vm_compute; reflexivity|reflexivity..]. Qed.



(* --------------------------------------------------------------------- *)
(** *** Frame conditions (C10) and the prior gate of lnprob (C7) *)
(* --------------------------------------------------------------------- *)

Global Instance params_only_preorder : PreOrder params_only.
Proof.
  split.
  - by intros s.
  - intros s1 s2 s3 (? & ? & ? & ?) (? & ? & ? & ?). split_and!; congruence.
Qed.

Global Instance writes_only_preorder g : PreOrder (writes_only g).
Proof.
  split.
  - by intros s.
  - intros s1 s2 s3 (? & ? & H1) (? & ? & H2). split_and!; [congruence..|].
    intros l Hl. by rewrite H2, H1.
Qed.

Section frame.
Context (R : relation state) `{!PreOrder R}.

Lemma preserves_ret {A} (a : A) : preserves R (ret a).
Proof using Type*. by intros s. Qed.

Lemma preserves_raise {A} e : preserves R (@raise A e).
Proof using Type*. by intros s. Qed.

Lemma preserves_lift {A} (r : result A) : preserves R (lift r).
Proof using Type*. by intros s. Qed.

Lemma preserves_key {A} (o : option A) : preserves R (key o).
Proof using Type*. destruct o; by intros s. Qed.

Lemma preserves_assert b : preserves R (assert b).
Proof using Type*. destruct b; by intros s. Qed.

Lemma preserves_get_self : preserves R get_self.
Proof using Type*. by intros s. Qed.

Lemma preserves_load l : preserves R (load l).
Proof using Type*. intros s. unfold load. by destruct (heap s !! l). Qed.

Lemma preserves_bind {A B} (m : M A) (k : A → M B) :
  preserves R m → (∀ a, preserves R (k a)) → preserves R (bind m k).
Proof using Type*.
  intros Hm Hk s. unfold bind. specialize (Hm s).
  destruct (m s) as [[a|e] s1]; [|done]. cbn in Hm.
  by etrans; [|apply Hk].
Qed.

Lemma preserves_get_param p : preserves R (get_param p).
Proof using Type*.
  apply preserves_bind; [apply preserves_get_self|]. intros. apply preserves_key.
Qed.

Lemma preserves_for_each {A} (xs : list A) (body : A → M unit) :
  (∀ x, preserves R (body x)) → preserves R (for_each xs body).
Proof using Type*.
  intros Hb. induction xs as [|x xs IH]; [apply preserves_ret|].
  cbn [for_each]. by apply preserves_bind.
Qed.

Lemma preserves_for_acc {A B} (xs : list A) (acc : B) (body : B → A → M B) :
  (∀ acc x, preserves R (body acc x)) → preserves R (for_acc xs acc body).
Proof using Type*.
  intros Hb. revert acc. induction xs as [|x xs IH]; intros acc; [apply preserves_ret|].
  cbn [for_acc]. by apply preserves_bind.
Qed.
End frame.

Ltac frame :=
  repeat first
    [ apply preserves_bind | apply preserves_for_each | apply preserves_for_acc
    | apply preserves_ret | apply preserves_raise | apply preserves_lift
    | apply preserves_key | apply preserves_assert | apply preserves_get_self
    | apply preserves_load | apply preserves_get_param
    | progress intros | case_decide | match goal with |- preserves _ (let '(_, _) := ?pv in _) => destruct pv end ].




Lemma prior_product_frame theta : preserves eq (prior_product theta).
Proof. unfold prior_product. frame; apply _. Qed.






Lemma check_constrained_frame fuel theta s r s' :
  check_constrained fuel theta s = Some (r, s') →
  self s' = self s
  ∧ (∀ l, l ∈ dom (heap s) → l ≠ theta → heap s' !! l = heap s !! l)
  ∧ (∀ t sg b, r = Ok (t, sg, b) → t = theta ∧ sg ∉ dom (heap s)).
Proof.
  destruct (heap s !! theta) as [th|] eqn:Hth.
  - rewrite (check_constrained_run fuel theta s th Hth).
    destruct (while_arrays _ _ _) as [a'|]; [|done].
    intros [= <- <-]. split_and!; [done| |].
    + intros l Hl Hne. cbn.
      rewrite lookup_insert_ne; [by rewrite lookup_insert_ne|].
      intros <-. by apply is_fresh in Hl.
    + intros t sg b [= <- <- <-]. split; [done|]. apply is_fresh.
  - unfold check_constrained, bind, load. rewrite Hth.
    intros [= <- <-]. by split_and!.
Qed.



(** C7: when the log-prior of [theta] is not finite, [lnprob] returns
    minus infinity, leaves the state as it was and does not call the
    model: the call counter has not moved. *)
Theorem lnprob_short_circuit (model_output : Type) (model : loc → M model_output)
    (lnp_spec lnp_phot : model_output → ThetaParameters → value)
    s theta lnp_prior s1 :
  prior_product theta s = (Ok lnp_prior, s1) →
  isfinite lnp_prior = false →
  lnprob model_output model lnp_spec lnp_phot theta s = (Ok NegInf, s)
  ∧ model_calls (lnprob model_output model lnp_spec lnp_phot theta s).2 = model_calls s.
Proof.
  intros Hp Hfin.
  assert (s1 = s) as ->.
  { pose proof (prior_product_frame theta s) as H. by rewrite Hp in H. }
  assert (lnprob model_output model lnp_spec lnp_phot theta s = (Ok NegInf, s)) as Hl.
  { unfold lnprob, bind. by rewrite Hp, Hfin. }
  by rewrite Hl.
Qed.

(** With a finite log-prior the model is called. *)
Example lnprob_calls_model :
  model_calls
    (lnprob unit (λ _, ret tt) (λ _ _, zero) (λ _ _, zero) 1%positive
       (start_state [("mass"%string,
                      Block 0 1 (Some (λ x _, x)) None no_args None None)]
                    [q 0 1])).2
  = 1.
Proof. reflexivity. Qed.

(* --------------------------------------------------------------------- *)
(** *** bounds() (C8) *)
(* --------------------------------------------------------------------- *)

Section write_bound.
Variables (v : block) (mini maxi : arg).
Implicit Types (bs : list (arg * arg)) (ks : list nat).




End write_bound.










(* --------------------------------------------------------------------- *)
(** *** The theorems at concrete inputs *)
(* --------------------------------------------------------------------- *)

Lemma round_trip_witness :
  ∃ theta' s',
    (set_parameters 1%positive ;; theta_from_params)
      (start_state blocks_AB [q 1 2; q 1 2; q 0 1]) = (Ok theta', s')
    ∧ heap s' !! theta' = Some [q 1 2; q 1 2; q 0 1]
    ∧ theta' ≠ 1%positive
    ∧ heap s' !! 1%positive = Some [q 1 2; q 1 2; q 0 1].
Proof.
  apply (round_trip (start_state blocks_AB [q 1 2; q 1 2; q 0 1]) 1%positive).
  - reflexivity.
  - apply (bool_decide_unpack _). vm_compute. exact I.
  - reflexivity.
  - reflexivity.
Defined.

Lemma prior_product_is_sum_witness :
  ∃ lnp_prior,
    prior_product 1%positive (start_state blocks_AB [q 1 2; q 1 2; q 0 1])
    = (Ok lnp_prior, start_state blocks_AB [q 1 2; q 1 2; q 0 1])
    ∧ veq lnp_prior (log_prior_spec blocks_AB [q 1 2; q 1 2; q 0 1]).
Proof.
  apply (prior_product_is_sum (start_state blocks_AB [q 1 2; q 1 2; q 0 1]) 1%positive).
  - reflexivity.
  - reflexivity.
  - repeat constructor; by eexists.
Defined.

(** The log-prior of the specification's example: finite inside the
    support of both blocks, minus infinity outside the support of A. *)
Example log_prior_AB :
  (prior_product 1%positive (start_state blocks_AB [q 1 2; q 1 2; q 0 1])).1
  = Ok (q 0 1)
  ∧ (prior_product 1%positive (start_state blocks_AB [q 3 2; q 1 2; q 0 1])).1
    = Ok NegInf.
Proof. split; vm_compute; reflexivity. Qed.

Lemma lnp_prior_grad_scatter_witness :
  ∃ grad g s',
    lnp_prior_grad 1%positive (start_state blocks_AB [q 1 2; q 1 2; q 0 1])
    = (Ok grad, s')
    ∧ heap s' !! grad = Some g
    ∧ length g = 3
    ∧ (∀ p v i, (p, v) ∈ blocks_AB → owns v i →
         g !! i = block_gradient [q 1 2; q 1 2; q 0 1] v !! (i - i0 v))
    ∧ (∀ i, i < 3 → Forall (λ pv, ¬ owns pv.2 i) blocks_AB → g !! i = Some zero)
    ∧ heap (start_state blocks_AB [q 1 2; q 1 2; q 0 1]) !! grad = None
    ∧ heap s' !! 1%positive = Some [q 1 2; q 1 2; q 0 1]
    ∧ (∀ l, l ≠ grad →
         heap s' !! l = heap (start_state blocks_AB [q 1 2; q 1 2; q 0 1]) !! l)
    ∧ self s' = self (start_state blocks_AB [q 1 2; q 1 2; q 0 1]).
Proof.
  apply (lnp_prior_grad_scatter (start_state blocks_AB [q 1 2; q 1 2; q 0 1]) 1%positive).
  - reflexivity.
  - apply (bool_decide_unpack _). vm_compute. exact I.
  - reflexivity.
  - reflexivity.
  - repeat constructor; by eexists.
Defined.

Lemma lnprob_short_circuit_witness :
  lnprob unit (λ _, ret tt) (λ _ _, zero) (λ _ _, zero) 1%positive
    (start_state rejecting [q 0 1])
  = (Ok NegInf, start_state rejecting [q 0 1])
  ∧ model_calls
      (lnprob unit (λ _, ret tt) (λ _ _, zero) (λ _ _, zero) 1%positive
         (start_state rejecting [q 0 1])).2
    = 0.
Proof.
  apply (lnprob_short_circuit unit (λ _, ret tt) (λ _ _, zero) (λ _ _, zero)
           (start_state rejecting [q 0 1]) 1%positive NegInf
           (start_state rejecting [q 0 1])).
  - reflexivity.
  - reflexivity.
Defined.


(** What [bounds()] returns for vector and scalar bounds of full size. *)
Example bounds_mixed :
  (bounds (start_state mixed_bounds [q 0 1; q 0 1; q 0 1])).1
  = Ok [(Scalar (q 0 1), Scalar (q 1 1));
        (Scalar (q 0 1), Scalar (q 2 1));
        (Scalar (q 0 1), Scalar (q 4 1))].
Proof. vm_compute. reflexivity. Qed.



(* --------------------------------------------------------------------- *)
(** *** Expansion and contraction beyond the round trip *)
(* --------------------------------------------------------------------- *)

Lemma for_each_cons_ok {A} (x : A) xs body s s1 :
  body x s = (Ok tt, s1) →
  for_each (x :: xs) body s = for_each xs body s1.
Proof. intros H. cbn [for_each]. unfold bind. by rewrite H. Qed.

Lemma for_each_cons_raise {A} (x : A) xs body s e s1 :
  body x s = (Raise e, s1) →
  for_each (x :: xs) body s = (Raise e, s1).
Proof. intros H. cbn [for_each]. unfold bind. by rewrite H. Qed.

(** X1: [set_parameters] checks the length of [theta] before it touches
    [self.params]: a vector whose length is not [ndim] is an
    [AssertionError], and the object is exactly as it was. *)
Theorem set_parameters_wrong_length s theta th :
  heap s !! theta = Some th →
  length th ≠ ndim (self s) →
  set_parameters theta s = (Raise AssertionError, s).
Proof.
  intros Hth Hlen. unfold set_parameters.
  unfold bind at 1, load at 1. rewrite Hth.
  unfold bind at 1, get_self at 1.
  unfold bind at 1. by rewrite bool_decide_eq_false_2.
Qed.

(** X2: After [set_parameters(theta)] on a partitioned descriptor every
    block's parameter is an array of exactly [N] elements, the [k]-th of
    which is [theta[i0 + k]]. *)
Theorem set_parameters_expands s theta th :
  constructed (self s) →
  partitions (theta_desc (self s)) →
  heap s !! theta = Some th →
  length th = ndim (self s) →
  ∃ s',
    set_parameters theta s = (Ok tt, s')
    ∧ ∀ p v, (p, v) ∈ theta_desc (self s) →
        ∃ a, params (self s') !! p = Some a
             ∧ length a = N v
             ∧ ∀ k, k < N v → a !! k = th !! (i0 v + k).
Proof.
  intros Hc (Hnd & Hrange & _) Hth Hlen. eexists. split.
  - by apply (set_parameters_run theta th).
  - intros p v Hin. cbn [with_params self params].
    eexists. split; [by apply expanded_lookup|].
    rewrite Forall_forall in Hrange. specialize (Hrange (p, v) Hin). cbn in Hrange.
    rewrite <-Hc, <-Hlen in Hrange. split.
    + rewrite length_slice. lia.
    + intros k Hk. rewrite lookup_slice. rewrite decide_True by lia. done.
Qed.

(** X3: [set_parameters] writes the parameters named by the descriptor and
    no others: a fixed parameter given to the constructor keeps its
    value, and the descriptor, [ndim] and every array stay as they were. *)
Theorem set_parameters_keeps_fixed_params s theta th p :
  heap s !! theta = Some th →
  length th = ndim (self s) →
  p ∉ (theta_desc (self s)).*1 →
  ∃ s',
    set_parameters theta s = (Ok tt, s')
    ∧ params (self s') !! p = params (self s) !! p
    ∧ theta_desc (self s') = theta_desc (self s)
    ∧ ndim (self s') = ndim (self s)
    ∧ heap s' = heap s.
Proof.
  intros Hth Hlen Hp. eexists. split.
  - by apply (set_parameters_run theta th).
  - cbn [with_params self params theta_desc ndim heap].
    split_and!; [|done..]. by apply expanded_notin.
Qed.

Lemma length_np_broadcast n a :
  length a = n ∨ length a = 1 → length (np_broadcast n a) = n.
Proof.
  intros Hlen. unfold np_broadcast. case_decide; [done|].
  destruct Hlen as [?|Hlen]; [done|].
  destruct a as [|x [|??]]; try done. by rewrite length_replicate.
Qed.

Lemma lookup_np_broadcast n a k :
  length a = n ∨ length a = 1 → k < n →
  np_broadcast n a !! k = if decide (length a = n) then a !! k else a !! 0.
Proof.
  intros Hlen Hk. unfold np_broadcast. case_decide; [done|].
  destruct Hlen as [?|Hlen]; [done|].
  destruct a as [|x [|??]]; try done. by apply lookup_replicate_2.
Qed.

Lemma assign_slice_broadcast start stop a dst n :
  length (slice start stop dst) = n →
  length a = n ∨ length a = 1 →
  assign_slice start stop a dst = Ok (put start (np_broadcast n a) dst).
Proof.
  intros Hn Hlen. unfold assign_slice, put. rewrite Hn.
  rewrite (length_np_broadcast n a Hlen).
  unfold np_broadcast. case_decide; [done|].
  destruct Hlen as [?|Hlen]; [done|].
  by destruct a as [|x [|??]].
Qed.

Lemma length_put_block start src dst :
  start + length src ≤ length dst → length (put start src dst) = length dst.
Proof.
  intros Hlen. unfold put.
  rewrite !length_app, length_take, length_drop. lia.
Qed.

Lemma lookup_put_block start src dst i :
  start + length src ≤ length dst →
  put start src dst !! i
  = if decide (start ≤ i < start + length src) then src !! (i - start) else dst !! i.
Proof.
  intros Hlen. apply lookup_put. rewrite length_slice. lia.
Qed.

Section contract_any.
Variable ps : gmap string (list value).

Lemma contracted_cons pv desc dst a :
  ps !! pv.1 = Some a →
  contracted ps dst (pv :: desc)
  = contracted ps (put (i0 pv.2) (np_broadcast (N pv.2) a) dst) desc.
Proof. intros Ha. unfold contracted. cbn [foldl]. by rewrite Ha. Qed.

Lemma contracted_app l1 l2 dst :
  contracted ps dst (l1 ++ l2) = contracted ps (contracted ps dst l1) l2.
Proof. unfold contracted. by rewrite foldl_app. Qed.

Lemma length_contracted desc dst :
  Forall (λ pv, fits ps pv ∧ i0 pv.2 + N pv.2 ≤ length dst) desc →
  length (contracted ps dst desc) = length dst.
Proof.
  revert dst. induction desc as [|pv desc IH]; intros dst Hf; [done|].
  apply Forall_cons in Hf as [[(a & Ha & Hlen) Hr] Hf].
  rewrite (contracted_cons _ _ _ a Ha).
  assert (length (put (i0 pv.2) (np_broadcast (N pv.2) a) dst) = length dst) as Hl.
  { apply length_put_block. by rewrite length_np_broadcast. }
  rewrite IH; [done|]. eapply Forall_impl; [exact Hf|].
  intros pv' [? ?]. split; [done|]. by rewrite Hl.
Qed.

Lemma lookup_contracted_other desc dst i :
  Forall (λ pv, fits ps pv ∧ i0 pv.2 + N pv.2 ≤ length dst) desc →
  Forall (λ v, ¬ owns v i) desc.*2 →
  contracted ps dst desc !! i = dst !! i.
Proof.
  revert dst. induction desc as [|pv desc IH]; intros dst Hf Hno; [done|].
  apply Forall_cons in Hf as [[(a & Ha & Hlen) Hr] Hf].
  rewrite fmap_cons in Hno. apply Forall_cons in Hno as [Hv Hno].
  rewrite (contracted_cons _ _ _ a Ha).
  assert (length (put (i0 pv.2) (np_broadcast (N pv.2) a) dst) = length dst) as Hl.
  { apply length_put_block. by rewrite length_np_broadcast. }
  rewrite IH; [|eapply Forall_impl; [exact Hf|];
                 intros pv' [? ?]; split; [done|by rewrite Hl]|done].
  rewrite lookup_put_block by (by rewrite length_np_broadcast).
  rewrite length_np_broadcast by done.
  rewrite decide_False; [done|]. exact Hv.
Qed.

Lemma lookup_contracted_owned l1 p v l2 dst a k :
  Forall (λ pv, fits ps pv ∧ i0 pv.2 + N pv.2 ≤ length dst) (l1 ++ (p, v) :: l2) →
  Forall (λ v', ¬ owns v' (i0 v + k)) l1.*2 →
  Forall (λ v', ¬ owns v' (i0 v + k)) l2.*2 →
  ps !! p = Some a → k < N v →
  contracted ps dst (l1 ++ (p, v) :: l2) !! (i0 v + k)
  = if decide (length a = N v) then a !! k else a !! 0.
Proof.
  intros Hf H1 H2 Ha Hk.
  apply Forall_app in Hf as [Hf1 Hf2]. apply Forall_cons in Hf2 as [[Hfit Hr] Hf2].
  cbn [fst snd] in Hfit, Hr.
  destruct Hfit as (a' & Ha' & Hlen). cbn [fst snd] in Ha', Hlen.
  rewrite Ha in Ha'. injection Ha' as <-.
  rewrite contracted_app, (contracted_cons (p, v) _ _ a Ha). cbn [fst snd].
  pose proof (length_contracted l1 dst Hf1) as Hl1.
  set (dst1 := contracted ps dst l1) in *.
  assert (length (put (i0 v) (np_broadcast (N v) a) dst1) = length dst) as Hl.
  { rewrite length_put_block; [done|]. rewrite length_np_broadcast by done. lia. }
  rewrite lookup_contracted_other; [| |done].
  2:{ eapply Forall_impl; [exact Hf2|]. intros pv' [? ?]. split; [done|]. by rewrite Hl. }
  rewrite lookup_put_block by (rewrite length_np_broadcast by done; lia).
  rewrite length_np_broadcast by done.
  rewrite decide_True by lia.
  replace (i0 v + k - i0 v) with k by lia.
  by apply lookup_np_broadcast.
Qed.

Lemma theta_from_params_loop_any l desc s dst :
  ps = params (self s) →
  heap s !! l = Some dst →
  Forall (λ pv, fits ps pv ∧ i0 pv.2 + N pv.2 ≤ length dst) desc →
  for_each desc (λ pv,
    let '(p, v) := pv in
    let start := i0 v in
    let stop := i0 v + N v in
    src <- get_param p ;;
    dst <- load l ;;
    new <- lift (assign_slice start stop src dst) ;;
    store l new) s
  = (Ok tt, with_heap s (<[l := contracted ps dst desc]> (heap s))).
Proof.
  intros Hps. revert s dst Hps.
  induction desc as [|[p v] desc IH]; intros s dst Hps Hl Hf.
  - cbn. unfold ret. rewrite insert_id by done. by rewrite with_heap_id.
  - apply Forall_cons in Hf as [[(a & Ha & Hlen) Hr] Hf]. cbn [fst snd] in Ha, Hlen, Hr.
    assert (length (put (i0 v) (np_broadcast (N v) a) dst) = length dst) as Hlp.
    { apply length_put_block. by rewrite length_np_broadcast. }
    erewrite for_each_cons_ok.
    2:{ unfold bind at 1. unfold get_param, bind at 1, get_self at 1.
        rewrite <-Hps, Ha. cbn [key]. unfold ret at 1.
        unfold bind at 1, load at 1. rewrite Hl.
        unfold bind at 1, lift at 1.
        rewrite (assign_slice_broadcast _ _ _ _ (N v)); [|rewrite length_slice; lia|done].
        unfold store. reflexivity. }
    rewrite (IH _ (put (i0 v) (np_broadcast (N v) a) dst)); cbn [heap self model_calls].
    + rewrite (contracted_cons (p, v) _ _ a Ha).
      unfold with_heap. cbn [fst snd heap self model_calls].
      by rewrite insert_insert_eq.
    + done.
    + by rewrite lookup_insert_eq.
    + eapply Forall_impl; [exact Hf|]. intros pv' [? ?]. split; [done|]. by rewrite Hlp.
Qed.
End contract_any.

Lemma theta_from_params_contracted s :
  constructed (self s) →
  partitions (theta_desc (self s)) →
  Forall (fits (params (self s))) (theta_desc (self s)) →
  let l := fresh (dom (heap s)) in
  let th := contracted (params (self s)) (zeros (ndim (self s))) (theta_desc (self s)) in
  theta_from_params s = (Ok l, with_heap s (<[l := th]> (heap s)))
  ∧ length th = ndim (self s)
  ∧ ∀ p v a k, (p, v) ∈ theta_desc (self s) →
      params (self s) !! p = Some a → k < N v →
      th !! (i0 v + k) = if decide (length a = N v) then a !! k else a !! 0.
Proof.
  intros Hc Hpart Hfit l th.
  assert (Forall (λ pv, fits (params (self s)) pv
                        ∧ i0 pv.2 + N pv.2 ≤ length (zeros (ndim (self s))))
            (theta_desc (self s))) as Hf.
  { destruct Hpart as (_ & Hrange & _).
    rewrite Forall_forall in Hfit, Hrange |- *. intros pv Hpv.
    split; [by apply Hfit|]. unfold zeros. rewrite length_replicate, Hc.
    by apply Hrange. }
  split_and!.
  - unfold theta_from_params. unfold bind at 1, get_self at 1.
    unfold bind at 1, alloc at 1. fold l.
    unfold bind at 1.
    rewrite (theta_from_params_loop_any (params (self s)) l _ _ (zeros (ndim (self s))));
      cbn [heap self model_calls]; [|done|by rewrite lookup_insert_eq|done].
    unfold ret, with_heap. cbn [heap self model_calls].
    by rewrite insert_insert_eq.
  - unfold th. rewrite length_contracted by done. unfold zeros. by rewrite length_replicate.
  - intros p v a k Hin Ha Hk.
    destruct (owner_split _ p v (i0 v + k) (partitions_disjoint _ Hpart) Hin)
      as (l1 & l2 & Hdesc & H1 & H2); [unfold owns; lia|].
    unfold th. rewrite Hdesc in Hf |- *. by apply lookup_contracted_owned.
Qed.

(** X4: [theta_from_params] for any parameter values that fit: when every
    block's parameter has [N] elements or a single one, the call returns a
    fresh vector of length [ndim] whose component [i0 + k] is the [k]-th
    element of the block's parameter, or its only element when that is
    broadcast along the block. *)
Theorem theta_from_params_entries s :
  constructed (self s) →
  partitions (theta_desc (self s)) →
  Forall (fits (params (self s))) (theta_desc (self s)) →
  ∃ theta th s',
    theta_from_params s = (Ok theta, s')
    ∧ (theta ∉ dom (heap s))
    ∧ heap s' !! theta = Some th
    ∧ length th = ndim (self s)
    ∧ ∀ p v a k, (p, v) ∈ theta_desc (self s) →
        params (self s) !! p = Some a → k < N v →
        th !! (i0 v + k) = if decide (length a = N v) then a !! k else a !! 0.
Proof.
  intros Hc Hpart Hfit.
  destruct (theta_from_params_contracted s Hc Hpart Hfit) as (Hrun & Hlen & Hent).
  eexists _, _, _. split_and!; [exact Hrun|apply is_fresh| |exact Hlen|exact Hent].
  cbn. by rewrite lookup_insert_eq.
Qed.

(** X5: The round trip in the other direction: when every block's parameter
    has exactly [N] elements, [set_parameters(theta_from_params())]
    succeeds and leaves the object, [self.params] included, exactly as it
    was. *)
Theorem params_round_trip s :
  constructed (self s) →
  partitions (theta_desc (self s)) →
  Forall (λ pv, ∃ a, params (self s) !! pv.1 = Some a ∧ length a = N pv.2)
         (theta_desc (self s)) →
  ∃ s',
    (theta <- theta_from_params ;; set_parameters theta) s = (Ok tt, s')
    ∧ self s' = self s.
Proof.
  intros Hc Hpart Hexact.
  assert (Forall (fits (params (self s))) (theta_desc (self s))) as Hfit.
  { eapply Forall_impl; [exact Hexact|]. intros pv (a & Ha & Hl). exists a. auto. }
  destruct (theta_from_params_contracted s Hc Hpart Hfit) as (Hrun & Hlen & Hent).
  set (l := fresh (dom (heap s))) in *.
  set (th := contracted _ _ _) in *.
  eexists. split.
  - unfold bind at 1. rewrite Hrun.
    apply (set_parameters_run l th); cbn; [by rewrite lookup_insert_eq|done].
  - cbn [with_params with_heap self heap model_calls].
    destruct (self s) as [desc ps n] eqn:Eself. cbn [theta_desc params ndim] in *.
    f_equal. apply map_eq. intros p.
    destruct (decide (p ∈ desc.*1)) as [Hp|Hp].
    + apply list_elem_of_fmap in Hp as ([p' v] & -> & Hin). cbn [fst].
      rewrite (expanded_lookup th desc ps p' v); [|apply Hpart|done].
      rewrite Forall_forall in Hexact.
      destruct (Hexact _ Hin) as (a & Ha & Hl). cbn [fst snd] in Ha, Hl.
      rewrite Ha. f_equal. apply list_eq. intros k.
      rewrite lookup_slice. case_decide as Hk.
      * rewrite (Hent p' v a k Hin Ha) by lia. by rewrite decide_True.
      * symmetry. apply lookup_ge_None. lia.
    + by apply expanded_notin.
Qed.

Lemma assign_slice_ok start stop a dst new :
  assign_slice start stop a dst = Ok new →
  (length a = length (slice start stop dst) ∨ length a = 1)
  ∧ length new = length dst.
Proof.
  unfold assign_slice. rewrite length_slice.
  case_decide as Hlen.
  - intros [= <-]. split; [by left|].
    rewrite !length_app, length_take, length_drop. lia.
  - destruct a as [|x [|??]]; try done. intros [= <-]. split; [by right|].
    rewrite !length_app, length_take, length_replicate, length_drop. lia.
Qed.

Lemma theta_from_params_loop_ok l desc s dst s' :
  heap s !! l = Some dst →
  for_each desc (λ pv,
    let '(p, v) := pv in
    let start := i0 v in
    let stop := i0 v + N v in
    src <- get_param p ;;
    dst <- load l ;;
    new <- lift (assign_slice start stop src dst) ;;
    store l new) s
  = (Ok tt, s') →
  Forall (λ pv, ∃ a, params (self s) !! pv.1 = Some a
                     ∧ (length a = N pv.2 `min` (length dst - i0 pv.2)
                        ∨ length a = 1)) desc.
Proof.
  revert s dst. induction desc as [|[p v] desc IH]; intros s dst Hl Hrun; [done|].
  cbn [for_each] in Hrun. unfold bind at 1 in Hrun.
  unfold bind at 1 in Hrun. unfold get_param, bind at 1, get_self at 1 in Hrun.
  destruct (params (self s) !! p) as [a|] eqn:Ha; [|done].
  cbn [key] in Hrun. unfold ret at 1 in Hrun.
  unfold bind at 1, load at 1 in Hrun. rewrite Hl in Hrun.
  unfold bind at 1, lift at 1 in Hrun.
  destruct (assign_slice (i0 v) (i0 v + N v) a dst) as [new|e] eqn:Eas; [|done].
  apply assign_slice_ok in Eas as [Hfit Hnew].
  rewrite length_slice in Hfit.
  unfold store at 1 in Hrun.
  apply (IH _ new) in Hrun; [|cbn; by rewrite lookup_insert_eq].
  constructor.
  - exists a. cbn [fst snd]. split; [done|].
    replace (N v `min` (length dst - i0 v))
      with ((i0 v + N v - i0 v) `min` (length dst - i0 v)) by lia. done.
  - cbn [self] in Hrun. by rewrite Hnew in Hrun.
Qed.

(** X6: What [theta_from_params] needs: it returns only if [self.params] has
    an entry for every block of the descriptor, and each entry has the
    length of the block's slice of the new vector or is a single element;
    a missing name ([KeyError]) or another shape ([ValueError]) ends the
    call. *)
Theorem theta_from_params_needs_params s theta s' :
  theta_from_params s = (Ok theta, s') →
  Forall (λ pv, ∃ a, params (self s) !! pv.1 = Some a
                     ∧ (length a = N pv.2 `min` (ndim (self s) - i0 pv.2)
                        ∨ length a = 1)) (theta_desc (self s)).
Proof.
  unfold theta_from_params. unfold bind at 1, get_self at 1.
  unfold bind at 1, alloc at 1. unfold bind at 1.
  set (l := fresh (dom (heap s))).
  destruct (for_each _ _ _) as [[[]|e] s1] eqn:Erun; [|done].
  intros _.
  apply (theta_from_params_loop_ok l _ _ (zeros (ndim (self s)))) in Erun.
  - cbn [self] in Erun. unfold zeros in Erun. by rewrite length_replicate in Erun.
  - cbn. by rewrite lookup_insert_eq.
Qed.

(* --------------------------------------------------------------------- *)
(** *** The log-prior: missing prior functions and rejection *)
(* --------------------------------------------------------------------- *)

Lemma prior_product_loop_missing theta th (desc : list (string * block)) acc s :
  heap s !! theta = Some th →
  Exists (λ pv, prior_function pv.2 = None) desc →
  for_acc desc acc (λ lnp_prior pv,
    let '(p, v) := pv in
    let start := i0 v in
    let stop := i0 v + N v in
    f <- key (prior_function v) ;;
    th <- load theta ;;
    ret (add lnp_prior (Np.sum (f (slice start stop th) (prior_args v))))) s
  = (Raise KeyError, s).
Proof.
  intros Hth. revert acc. induction desc as [|[p v] desc IH]; intros acc Hex.
  - by apply Exists_nil in Hex.
  - cbn [for_acc]. unfold bind at 1. unfold bind at 1.
    destruct (prior_function v) as [f|] eqn:Hf.
    + cbn [key]. unfold ret at 1. unfold bind at 1, load at 1. rewrite Hth.
      unfold ret at 1. apply IH.
      apply Exists_cons in Hex as [Hex|Hex]; [|done].
      cbn [snd] in Hex. congruence.
    + done.
Qed.

(** X7: [prior_product] requires a prior function in every block: if one
    block of the descriptor has no ['prior_function'], the call raises
    [KeyError] whatever the other blocks return, and changes nothing. *)
Theorem prior_product_needs_functions s theta th :
  heap s !! theta = Some th →
  Exists (λ pv, prior_function pv.2 = None) (theta_desc (self s)) →
  prior_product theta s = (Raise KeyError, s).
Proof.
  intros Hth Hex. unfold prior_product. unfold bind at 1, get_self at 1.
  by apply (prior_product_loop_missing theta th).
Qed.





(* --------------------------------------------------------------------- *)
(** *** The theorems above at concrete inputs *)
(* --------------------------------------------------------------------- *)

Lemma set_parameters_wrong_length_witness :
  set_parameters 1%positive (start_state blocks_AB [q 1 2])
  = (Raise AssertionError, start_state blocks_AB [q 1 2]).
Proof.
  apply (set_parameters_wrong_length (start_state blocks_AB [q 1 2]) 1%positive [q 1 2]).
  - reflexivity.
  - vm_compute. discriminate.
Defined.

Lemma set_parameters_expands_witness :
  ∃ s',
    set_parameters 1%positive (start_state blocks_AB [q 1 2; q 1 3; q 0 1]) = (Ok tt, s')
    ∧ ∀ p v, (p, v) ∈ blocks_AB →
        ∃ a, params (self s') !! p = Some a
             ∧ length a = N v
             ∧ ∀ k, k < N v → a !! k = [q 1 2; q 1 3; q 0 1] !! (i0 v + k).
Proof.
  apply (set_parameters_expands (start_state blocks_AB [q 1 2; q 1 3; q 0 1]) 1%positive).
  - reflexivity.
  - apply (bool_decide_unpack _). vm_compute. exact I.
  - reflexivity.
  - reflexivity.
Defined.

Lemma set_parameters_keeps_fixed_params_witness :
  ∃ s',
    set_parameters 1%positive fixed_zred = (Ok tt, s')
    ∧ params (self s') !! "zred" = Some [q 1 10]
    ∧ theta_desc (self s') = no_bounds
    ∧ ndim (self s') = 1
    ∧ heap s' = heap fixed_zred.
Proof.
  apply (set_parameters_keeps_fixed_params fixed_zred 1%positive [q 3 1] "zred").
  - reflexivity.
  - reflexivity.
  - vm_compute. intros H. apply list_elem_of_In in H. simpl in H.
    destruct H as [H|H]; [discriminate H|exact H].
Defined.

Lemma theta_from_params_entries_witness :
  ∃ theta th s',
    theta_from_params
      (configured blocks_AB [("A"%string, Scalar (q 1 2)); ("B"%string, Vector [q 0 1])])
    = (Ok theta, s')
    ∧ (theta ∉ dom (∅ : gmap loc (list value)))
    ∧ heap s' !! theta = Some th
    ∧ length th = 3
    ∧ ∀ p v a k, (p, v) ∈ blocks_AB →
        ({[ "A"%string := [q 1 2]; "B"%string := [q 0 1] ]} : gmap string (list value)) !! p
        = Some a →
        k < N v →
        th !! (i0 v + k) = if decide (length a = N v) then a !! k else a !! 0.
Proof.
  apply (theta_from_params_entries
           (configured blocks_AB
              [("A"%string, Scalar (q 1 2)); ("B"%string, Vector [q 0 1])])).
  - reflexivity.
  - apply (bool_decide_unpack _). vm_compute. exact I.
  - repeat constructor.
    + exists [q 1 2]. split; [reflexivity|]. right. reflexivity.
    + exists [q 0 1]. split; [reflexivity|]. left. reflexivity.
Defined.

Lemma params_round_trip_witness :
  ∃ s',
    (theta <- theta_from_params ;; set_parameters theta)
      (configured blocks_AB
         [("A"%string, Vector [q 1 2; q 1 3]); ("B"%string, Vector [q 0 1])])
    = (Ok tt, s')
    ∧ self s'
      = init blocks_AB [("A"%string, Vector [q 1 2; q 1 3]); ("B"%string, Vector [q 0 1])].
Proof.
  apply (params_round_trip
           (configured blocks_AB
              [("A"%string, Vector [q 1 2; q 1 3]); ("B"%string, Vector [q 0 1])])).
  - reflexivity.
  - apply (bool_decide_unpack _). vm_compute. exact I.
  - repeat constructor.
    + exists [q 1 2; q 1 3]. split; reflexivity.
    + exists [q 0 1]. split; reflexivity.
Defined.

Lemma theta_from_params_needs_params_witness :
  Forall (λ pv, ∃ a,
            ({[ "A"%string := [q 1 2]; "B"%string := [q 0 1] ]}
               : gmap string (list value)) !! pv.1 = Some a
            ∧ (length a = N pv.2 `min` (3 - i0 pv.2) ∨ length a = 1))
         blocks_AB.
Proof.
  apply (theta_from_params_needs_params
           (configured blocks_AB
              [("A"%string, Scalar (q 1 2)); ("B"%string, Vector [q 0 1])])
           1%positive
           (State {[ 1%positive := [q 1 2; q 1 2; q 0 1] ]}
                  (init blocks_AB
                     [("A"%string, Scalar (q 1 2)); ("B"%string, Vector [q 0 1])]) 0)).
  vm_compute. reflexivity.
Defined.

Lemma prior_product_needs_functions_witness :
  prior_product 1%positive (start_state two_blocks [q 1 1; q 2 1; q 3 1])
  = (Raise KeyError, start_state two_blocks [q 1 1; q 2 1; q 3 1]).
Proof.
  apply (prior_product_needs_functions
           (start_state two_blocks [q 1 1; q 2 1; q 3 1]) 1%positive [q 1 1; q 2 1; q 3 1]).
  - reflexivity.
  - apply Exists_cons_hd. reflexivity.
Defined.


(* --------------------------------------------------------------------- *)
(** *** Reflection: what holds on return (C5), and a call that never raises (C6) *)
(* --------------------------------------------------------------------- *)

Lemma check_constrained_returns fuel theta s th r s' :
  heap s !! theta = Some th →
  check_constrained fuel theta s = Some (r, s') →
  ∃ a',
    while_arrays fuel (theta_desc (self s)) (initial th) = Some a'
    ∧ r = Ok (theta, fresh (dom (heap s)), false)
    ∧ heap s' !! theta = Some (a_theta a')
    ∧ heap s' !! fresh (dom (heap s)) = Some (a_sign a').
Proof.
  intros Hth Hrun.
  set (sign := fresh (dom (heap s))).
  assert (heap s !! sign = None) as Hfresh.
  { apply not_elem_of_dom. apply is_fresh. }
  assert (theta ≠ sign) as Hne by congruence.
  rewrite (check_constrained_run fuel theta s th Hth) in Hrun.
  destruct (while_arrays fuel (theta_desc (self s)) (initial th)) as [a'|]; [|done].
  injection Hrun as <- <-. exists a'.
  destruct (written_holds theta sign Hne s a') as [H1 H2].
  by split_and!.
Qed.

Lemma binary64_scan_fixed :
  F64.scan F64.unit_interval [1e17%float] [1%float]
  = ([1e17%float], [1%float], true).
Proof. vm_compute. reflexivity. Qed.

Lemma binary64_loops fuel :
  F64.while_oob fuel F64.unit_interval [1e17%float] [1%float] = None.
Proof.
  induction fuel as [|fuel IH]; [done|].
  cbn [F64.while_oob]. by rewrite binary64_scan_fixed.
Qed.

(** C5 (as stated) fails for the arithmetic of the code: with the bounds
    [0, 1] and the finite position 1e17, [2*1 - 1e17] rounds to [-1e17]
    and [2*0 - (-1e17)] is [1e17] again, so every pass ends where it began
    with [oob] set, and no number of passes makes the call return. *)
Lemma binary64_reflection_never_returns :
  PrimFloat.ltb 0 1 = true
  ∧ PrimFloat.is_finite 1e17 = true
  ∧ ¬ ∃ fuel r, F64.check_constrained fuel F64.unit_interval [1e17%float] = Some r.
Proof.
  split_and!; [reflexivity..|]. intros (fuel & r & Hr).
  unfold F64.check_constrained in Hr. cbn [length replicate] in Hr.
  by rewrite binary64_loops in Hr.
Qed.

(** C5 (as amended): whatever the descriptor and the position, when
    [check_constrained] returns it has run full passes until one found no
    component above its [upper] or below its [lower]: that holds of every
    component of every block of the returned position, a component that
    is a number lies within the finite bounds of its block, and every
    entry of the returned sign array is (-1) to the number of reflections
    the passes applied to that component (the ghost counter of
    [while_arrays], which runs the same passes). *)
Theorem check_constrained_on_return s theta th fuel r s' :
  heap s !! theta = Some th →
  check_constrained fuel theta s = Some (r, s') →
  ∃ sign a',
    r = Ok (theta, sign, false)
    ∧ while_arrays fuel (theta_desc (self s)) (initial th) = Some a'
    ∧ heap s' !! theta = Some (a_theta a')
    ∧ heap s' !! sign = Some (a_sign a')
    ∧ (∀ p v i x, (p, v) ∈ theta_desc (self s) → owns v i →
         a_theta a' !! i = Some x →
         inside v x ∧ (isfinite x = true → in_bounds v x))
    ∧ (∀ i, a_sign a' !! i = minus_one_pow <$> a_count a' !! i).
Proof.
  intros Hth Hrun.
  destruct (check_constrained_returns _ _ _ _ _ _ Hth Hrun) as (a' & Hw & -> & Ht & Hsg).
  destruct (while_arrays_exit _ _ _ _ (initial_shape th) (initial_parity th) Hw)
    as (Hs & Hp & _ & Hq).
  exists (fresh (dom (heap s))), a'. split_and!; [done..| |].
  - intros p v i x Hin Ho Hx.
    rewrite Forall_fmap, Forall_forall in Hq.
    pose proof (Hq (p, v) Hin i x Ho Hx) as Hins. split; [exact Hins|].
    destruct x as [xq| | |]; try done. intros _. by apply quiet_in_bounds.
  - intros i. by apply parity_lookup.
Qed.

(** C6 (as amended): [check_constrained] has no error of its own and no
    bound on the number of passes: once [theta] is an array, after any
    number of passes the call either is still running or has returned
    [theta], a sign array and [False]; it never raises. *)
Theorem check_constrained_never_raises s theta th fuel :
  heap s !! theta = Some th →
  check_constrained fuel theta s = None
  ∨ ∃ sign s', check_constrained fuel theta s = Some (Ok (theta, sign, false), s').
Proof.
  intros Hth. rewrite (check_constrained_run fuel theta s th Hth).
  destruct (while_arrays _ _ _) as [a'|]; [right|by left].
  by eexists _, _.
Qed.

Lemma minus_one_pow_sign c : is_sign (minus_one_pow c).
Proof. unfold is_sign, minus_one_pow. destruct (Nat.even c); auto. Qed.

(** X12: Partial correctness of [check_constrained] for any descriptor and
    any position, overlapping slices and special values included: when
    the call returns, it returns the array it was given, of unchanged
    length, and no component of any block is above the block's upper or
    below its lower bound. *)
Theorem check_constrained_postcondition fuel theta s th r s' :
  heap s !! theta = Some th →
  check_constrained fuel theta s = Some (r, s') →
  ∃ sign th',
    r = Ok (theta, sign, false)
    ∧ heap s' !! theta = Some th'
    ∧ length th' = length th
    ∧ ∀ p v i x, (p, v) ∈ theta_desc (self s) → owns v i → th' !! i = Some x →
        inside v x.
Proof.
  intros Hth Hrun.
  destruct (check_constrained_returns _ _ _ _ _ _ Hth Hrun) as (a' & Hw & -> & Ht & _).
  destruct (while_arrays_exit _ _ _ _ (initial_shape th) (initial_parity th) Hw)
    as (_ & _ & Hl & Hq).
  eexists _, _. split_and!; [done|exact Ht|exact Hl|].
  intros p v i x Hin Ho Hx.
  rewrite Forall_fmap, Forall_forall in Hq. by apply (Hq (p, v) Hin i x).
Qed.

(** X13: The sign array [check_constrained] returns is a fresh array of the
    length of [theta], and each of its entries is +1 or -1. *)
Theorem check_constrained_signs fuel theta s th r s' :
  heap s !! theta = Some th →
  check_constrained fuel theta s = Some (r, s') →
  ∃ sign sg,
    r = Ok (theta, sign, false)
    ∧ (sign ∉ dom (heap s))
    ∧ heap s' !! sign = Some sg
    ∧ length sg = length th
    ∧ Forall is_sign sg.
Proof.
  intros Hth Hrun.
  destruct (check_constrained_returns _ _ _ _ _ _ Hth Hrun) as (a' & Hw & -> & _ & Hsg).
  destruct (while_arrays_exit _ _ _ _ (initial_shape th) (initial_parity th) Hw)
    as (Hs & Hp & Hl & _).
  eexists _, _. split_and!; [done|apply is_fresh|exact Hsg|..].
  - destruct Hs as [Hs _]. cbn in Hl. congruence.
  - apply Forall_lookup. intros i m Hm.
    rewrite (parity_lookup a' i Hs Hp) in Hm.
    destruct (a_count a' !! i) as [c|]; [|done].
    injection Hm as <-. apply minus_one_pow_sign.
Qed.

Lemma inside_comp v x m c :
  inside v x → lower_comp v (upper_comp v (x, m, c)) = (x, m, c).
Proof.
  intros [Hu Hl]. unfold upper_comp.
  destruct (upper v) as [u|].
  - rewrite (Hu u eq_refl). unfold lower_comp.
    destruct (lower v) as [l|]; [|done]. by rewrite (Hl l eq_refl).
  - unfold lower_comp.
    destruct (lower v) as [l|]; [|done]. by rewrite (Hl l eq_refl).
Qed.

Lemma foldl_scan_block_cell_inside blocks a oob i x m c :
  same_shape a →
  cell a i = Some (x, m, c) →
  Forall (λ v, owns v i → inside v x) blocks →
  cell (foldl scan_block (a, oob) blocks).1 i = Some (x, m, c).
Proof.
  revert a oob. induction blocks as [|v blocks IH]; intros a oob Hs Hc Hin; [done|].
  apply Forall_cons in Hin as [Hv Hin]. cbn [foldl].
  destruct (scan_block (a, oob) v) as [a1 oob1] eqn:E.
  assert (a1 = (scan_block (a, oob) v).1) as Ha1 by (by rewrite E).
  apply IH; [rewrite Ha1; by apply scan_block_shape| |done].
  rewrite Ha1, scan_block_cell by done. rewrite Hc.
  cbn [fmap option_fmap option_map]. case_decide as Ho; [|done].
  unfold compose. by rewrite inside_comp by auto.
Qed.

Lemma while_arrays_cell_settled fuel desc a a' i x m c :
  same_shape a →
  cell a i = Some (x, m, c) →
  settled desc i x →
  while_arrays fuel desc a = Some a' →
  cell a' i = Some (x, m, c).
Proof.
  intros Hs Hc Hset. revert a Hs Hc.
  induction fuel as [|fuel IH]; intros a Hs Hc Hrun; [done|].
  cbn [while_arrays] in Hrun.
  destruct (scan_arrays desc a) as [a1 oob1] eqn:E.
  assert (a1 = (scan_arrays desc a).1) as Ha1 by (by rewrite E).
  assert (cell a1 i = Some (x, m, c)) as Hc1.
  { rewrite Ha1. unfold scan_arrays. apply foldl_scan_block_cell_inside; [done..|].
    apply Forall_fmap, Forall_forall. intros [p v] Hin Ho. by apply (Hset p v). }
  destruct oob1; [|by injection Hrun as <-].
  apply (IH a1); [|done..]. rewrite Ha1. by apply foldl_scan_block_shape.
Qed.

(** X14: [check_constrained] moves only what is out of bounds: a component
    that is beyond no bound of the blocks that own it (because it lies
    within them, because they have no bounds, because no block owns it, or
    because it is nan) is returned as it was, with sign +1, however often
    other components are reflected. *)
Theorem check_constrained_keeps_settled fuel theta s th i x r s' :
  heap s !! theta = Some th →
  th !! i = Some x →
  settled (theta_desc (self s)) i x →
  check_constrained fuel theta s = Some (r, s') →
  ∃ sign th' sg,
    r = Ok (theta, sign, false)
    ∧ heap s' !! theta = Some th'
    ∧ heap s' !! sign = Some sg
    ∧ th' !! i = Some x
    ∧ sg !! i = Some one.
Proof.
  intros Hth Hx Hset Hrun.
  destruct (check_constrained_returns _ _ _ _ _ _ Hth Hrun) as (a' & Hw & -> & Ht & Hsg).
  assert (cell (initial th) i = Some (x, one, 0)) as Hc.
  { unfold cell, initial, ones_like. cbn. rewrite Hx.
    pose proof (lookup_lt_Some _ _ _ Hx) as Hlt.
    by rewrite !lookup_replicate_2 by done. }
  pose proof (while_arrays_cell_settled _ _ _ _ _ _ _ _ (initial_shape th) Hc Hset Hw) as Hc'.
  apply cell_inv in Hc' as (Hx' & Hm' & _).
  by eexists _, _, _.
Qed.

(** X15: A position that is beyond no bound is accepted in a single pass:
    [check_constrained] returns after one scan, the position is as it was
    and every sign is +1. Hence a second call on a returned position
    changes nothing. *)
Theorem check_constrained_in_bounds fuel theta s th :
  heap s !! theta = Some th →
  Forall (λ pv, quiet pv.2 th) (theta_desc (self s)) →
  ∃ sign s',
    check_constrained (S fuel) theta s = Some (Ok (theta, sign, false), s')
    ∧ (sign ∉ dom (heap s))
    ∧ heap s' !! theta = Some th
    ∧ heap s' !! sign = Some (ones_like th).
Proof.
  intros Hth Hq.
  set (sign := fresh (dom (heap s))).
  assert (heap s !! sign = None) as Hfresh.
  { apply not_elem_of_dom. apply is_fresh. }
  assert (theta ≠ sign) as Hne by congruence.
  exists sign. eexists.
  rewrite (check_constrained_run (S fuel) theta s th Hth).
  cbn [while_arrays]. unfold scan_arrays.
  rewrite foldl_scan_block_quiet; [|apply initial_shape|by apply Forall_fmap].
  cbn [fmap option_fmap option_map]. fold sign.
  destruct (written_holds theta sign Hne s (initial th)) as [H1 H2].
  split_and!; [done|apply is_fresh|exact H1|exact H2].
Qed.

(** X16: [check_constrained] is idempotent: on the state a returning call
    leaves, a second call returns after a single pass with the position
    unchanged and all signs +1. *)
Theorem check_constrained_idempotent fuel theta s th r s' :
  heap s !! theta = Some th →
  check_constrained fuel theta s = Some (r, s') →
  ∃ th' sign s'',
    heap s' !! theta = Some th'
    ∧ check_constrained 1 theta s' = Some (Ok (theta, sign, false), s'')
    ∧ heap s'' !! theta = Some th'
    ∧ heap s'' !! sign = Some (ones_like th').
Proof.
  intros Hth Hrun.
  destruct (check_constrained_returns _ _ _ _ _ _ Hth Hrun) as (a' & Hw & -> & Ht & _).
  destruct (while_arrays_exit _ _ _ _ (initial_shape th) (initial_parity th) Hw)
    as (_ & _ & _ & Hq).
  assert (self s' = self s) as Hself.
  { by destruct (check_constrained_frame _ _ _ _ _ Hrun) as (? & _). }
  set (sign := fresh (dom (heap s'))).
  assert (heap s' !! sign = None) as Hfresh.
  { apply not_elem_of_dom. apply is_fresh. }
  assert (theta ≠ sign) as Hne by congruence.
  exists (a_theta a'), sign. eexists.
  rewrite (check_constrained_run 1 theta s' (a_theta a') Ht).
  cbn [while_arrays]. unfold scan_arrays. rewrite Hself.
  rewrite foldl_scan_block_quiet; [|apply initial_shape|done].
  cbn [fmap option_fmap option_map]. fold sign.
  destruct (written_holds theta sign Hne s' (initial (a_theta a'))) as [H1 H2].
  split_and!; [done|done|exact H1|exact H2].
Qed.

(* --------------------------------------------------------------------- *)
(** *** The reflection theorems at concrete inputs *)
(* --------------------------------------------------------------------- *)

Lemma check_constrained_on_return_witness :
  ∃ sign a',
    Ok (1%positive, 2%positive, false) = Ok (1%positive, sign, false)
    ∧ while_arrays 2 unit_interval (initial [q 5 2]) = Some a'
    ∧ heap (written (start_state unit_interval [q 5 2]) 1%positive 2%positive
              (Arrays [q 1 2] [q 1 1] [2])) !! 1%positive = Some (a_theta a')
    ∧ heap (written (start_state unit_interval [q 5 2]) 1%positive 2%positive
              (Arrays [q 1 2] [q 1 1] [2])) !! sign = Some (a_sign a')
    ∧ (∀ p v i x, (p, v) ∈ unit_interval → owns v i →
         a_theta a' !! i = Some x →
         inside v x ∧ (isfinite x = true → in_bounds v x))
    ∧ (∀ i, a_sign a' !! i = minus_one_pow <$> a_count a' !! i).
Proof.
  apply (check_constrained_on_return (start_state unit_interval [q 5 2]) 1%positive
           [q 5 2] 2).
  - reflexivity.
  - vm_compute. reflexivity.
Defined.

Lemma check_constrained_never_raises_witness :
  check_constrained 1 1%positive (start_state unit_interval [q 5 2]) = None
  ∨ ∃ sign s',
      check_constrained 1 1%positive (start_state unit_interval [q 5 2])
      = Some (Ok (1%positive, sign, false), s').
Proof.
  apply (check_constrained_never_raises (start_state unit_interval [q 5 2]) 1%positive
           [q 5 2] 1).
  reflexivity.
Defined.

Lemma check_constrained_postcondition_witness :
  ∃ sign th',
    Ok (1%positive, 2%positive, false) = Ok (1%positive, sign, false)
    ∧ heap (written (start_state upper_only [q 2 1]) 1%positive 2%positive
              (Arrays [q 0 1] [q (-1) 1] [1])) !! 1%positive = Some th'
    ∧ length th' = 1
    ∧ ∀ p v i x, (p, v) ∈ upper_only → owns v i → th' !! i = Some x → inside v x.
Proof.
  apply (check_constrained_postcondition 2 1%positive (start_state upper_only [q 2 1])
           [q 2 1]).
  - reflexivity.
  - vm_compute. reflexivity.
Defined.

Lemma check_constrained_signs_witness :
  ∃ sign sg,
    Ok (1%positive, 2%positive, false) = Ok (1%positive, sign, false)
    ∧ (sign ∉ dom (heap (start_state upper_only [q 2 1])))
    ∧ heap (written (start_state upper_only [q 2 1]) 1%positive 2%positive
              (Arrays [q 0 1] [q (-1) 1] [1])) !! sign = Some sg
    ∧ length sg = 1
    ∧ Forall is_sign sg.
Proof.
  apply (check_constrained_signs 2 1%positive (start_state upper_only [q 2 1]) [q 2 1]).
  - reflexivity.
  - vm_compute. reflexivity.
Defined.

Lemma check_constrained_keeps_settled_witness :
  ∃ sign th' sg,
    Ok (1%positive, 2%positive, false) = Ok (1%positive, sign, false)
    ∧ heap (written (start_state free_and_bounded [q 5 1; q (-3) 1; q 2 1])
              1%positive 2%positive
              (Arrays [q 5 1; q (-3) 1; q 0 1] [q 1 1; q 1 1; q (-1) 1] [0; 0; 1]))
        !! 1%positive = Some th'
    ∧ heap (written (start_state free_and_bounded [q 5 1; q (-3) 1; q 2 1])
              1%positive 2%positive
              (Arrays [q 5 1; q (-3) 1; q 0 1] [q 1 1; q 1 1; q (-1) 1] [0; 0; 1]))
        !! sign = Some sg
    ∧ th' !! 0 = Some (q 5 1)
    ∧ sg !! 0 = Some one.
Proof.
  apply (check_constrained_keeps_settled 2 1%positive
           (start_state free_and_bounded [q 5 1; q (-3) 1; q 2 1])
           [q 5 1; q (-3) 1; q 2 1] 0 (q 5 1)).
  - reflexivity.
  - reflexivity.
  - intros p v Hin Ho.
    apply list_elem_of_In in Hin. simpl in Hin.
    destruct Hin as [Heq|[Heq|[]]]; injection Heq as <- <-.
    + split; intros b Hb; discriminate Hb.
    + unfold owns in Ho. simpl in Ho. lia.
  - vm_compute. reflexivity.
Defined.

Lemma check_constrained_in_bounds_witness :
  ∃ sign s',
    check_constrained 1 1%positive (start_state unit_interval [q 1 2])
    = Some (Ok (1%positive, sign, false), s')
    ∧ (sign ∉ dom (heap (start_state unit_interval [q 1 2])))
    ∧ heap s' !! 1%positive = Some [q 1 2]
    ∧ heap s' !! sign = Some (ones_like [q 1 2]).
Proof.
  apply (check_constrained_in_bounds 0 1%positive (start_state unit_interval [q 1 2])
           [q 1 2]).
  - reflexivity.
  - apply Forall_cons. split; [|apply Forall_nil_2].
    intros i x Ho Hx. unfold owns in Ho. simpl in Ho.
    assert (i = 0) as -> by lia. injection Hx as <-.
    split; intros b Hb; injection Hb as <-; reflexivity.
Defined.

Lemma check_constrained_idempotent_witness :
  ∃ th' sign s'',
    heap (written (start_state upper_only [q 2 1]) 1%positive 2%positive
            (Arrays [q 0 1] [q (-1) 1] [1])) !! 1%positive = Some th'
    ∧ check_constrained 1 1%positive
        (written (start_state upper_only [q 2 1]) 1%positive 2%positive
           (Arrays [q 0 1] [q (-1) 1] [1]))
      = Some (Ok (1%positive, sign, false), s'')
    ∧ heap s'' !! 1%positive = Some th'
    ∧ heap s'' !! sign = Some (ones_like th').
Proof.
  apply (check_constrained_idempotent 2 1%positive (start_state upper_only [q 2 1])
           [q 2 1] (Ok (1%positive, 2%positive, false))).
  - reflexivity.
  - vm_compute. reflexivity.
Defined.

(* --------------------------------------------------------------------- *)
(** *** Inversion of successful runs *)
(* --------------------------------------------------------------------- *)

Lemma bind_ok {A B} (m : M A) (k : A → M B) s b s' :
  bind m k s = (Ok b, s') → ∃ a s1, m s = (Ok a, s1) ∧ k a s1 = (Ok b, s').
Proof.
  unfold bind. destruct (m s) as [[a|e] s1]; [|done]. intros H. by exists a, s1.
Qed.

Lemma key_ok {A} (o : option A) s a s' :
  key o s = (Ok a, s') → o = Some a ∧ s' = s.
Proof. destruct o; cbn; unfold ret, raise; by intros [= <- <-]. Qed.

Lemma lift_ok {A} (r : result A) s a s' :
  lift r s = (Ok a, s') → r = Ok a ∧ s' = s.
Proof. unfold lift. by intros [= <- <-]. Qed.

Lemma setitem_ok {A} (l : list A) i x l' :
  setitem l i x = Ok l' → i < length l ∧ l' = <[i := x]> l.
Proof. unfold setitem. case_decide; [|done]. by intros [= <-]. Qed.

Lemma for_acc_ok {A B} (I : B → state → Prop) (Q : A → Prop) (xs : list A)
    (body : B → A → M B) :
  (∀ acc x s acc' s', x ∈ xs → I acc s → body acc x s = (Ok acc', s') →
     I acc' s' ∧ Q x) →
  ∀ acc s r s', I acc s → for_acc xs acc body s = (Ok r, s') → I r s' ∧ Forall Q xs.
Proof.
  induction xs as [|x xs IH]; intros Hbody acc s r s' HI Hrun.
  - cbn in Hrun. unfold ret in Hrun. injection Hrun as <- <-. by split.
  - cbn [for_acc] in Hrun. apply bind_ok in Hrun as (acc1 & s1 & Hx & Hrun).
    destruct (Hbody _ _ _ _ _ (list_elem_of_here _ _) HI Hx) as [HI1 HQ].
    destruct (IH (λ acc x s acc' s' Hin, Hbody acc x s acc' s' (list_elem_of_further _ _ _ Hin))
                acc1 s1 r s' HI1 Hrun) as [HIr HQs].
    split; [done|by constructor].
Qed.

(* --------------------------------------------------------------------- *)
(** *** bounds(): what a successful call implies *)
(* --------------------------------------------------------------------- *)

(** X19: Whenever [bounds()] returns, the list has exactly [ndim] entries,
    and every block of the descriptor has ['mini'] among its prior
    arguments and, unless ['mini'] is an empty array, ['maxi'] as well,
    with all the entries it writes inside the list. A block without
    these ends the call with an exception. *)
Theorem bounds_returns s bs s' :
  bounds s = (Ok bs, s') →
  length bs = ndim (self s)
  ∧ Forall (λ pv, bounds_usable (ndim (self s)) pv.2) (theta_desc (self s)).
Proof.
  unfold bounds. intros Hrun.
  apply bind_ok in Hrun as (me & s1 & Hme & Hrun).
  unfold get_self in Hme. injection Hme as <- <-.
  set (n := ndim (self s)) in *.
  apply (for_acc_ok (λ acc _, length acc = n) (λ pv, bounds_usable n pv.2)) in Hrun;
    [done| |apply length_replicate].
  clear. intros acc [p v] t acc' t' _ Hlen Hbody. cbn [snd].
  apply bind_ok in Hbody as (mini & s1 & Hmini & Hbody).
  apply key_ok in Hmini as [Hmini ->].
  case_decide as Hsz.
  - apply bind_ok in Hbody as (maxi & s2 & Hmaxi & Hbody).
    apply key_ok in Hmaxi as [Hmaxi ->].
    apply lift_ok in Hbody as [Hset ->].
    apply setitem_ok in Hset as [Hi ->].
    split; [by rewrite length_insert|].
    exists mini. split; [done|]. intros _. rewrite Hmaxi. split; [done|lia].
  - apply (for_acc_ok (λ acc _, length acc = n)
             (λ k, is_Some (prior_args v !! "maxi") ∧ i0 v + k < n)) in Hbody;
      [|clear -Hsz|done].
    + destruct Hbody as [Hlen' Hall]. split; [done|].
      exists mini. split; [done|]. intros Hnz.
      rewrite Forall_seq in Hall.
      destruct (Hall (np_size mini - 1)) as [Hmaxi Hi]; [lia|].
      split; [done|lia].
    + intros acc0 k t0 acc0' t0' _ Hlen0 Hbody.
      apply bind_ok in Hbody as (mini' & s1 & Hmini' & Hbody).
      apply key_ok in Hmini' as [Hmini' ->].
      apply bind_ok in Hbody as (lo & s2 & Hlo & Hbody).
      apply lift_ok in Hlo as [Hlo ->].
      apply bind_ok in Hbody as (maxi & s3 & Hmaxi & Hbody).
      apply key_ok in Hmaxi as [Hmaxi ->].
      apply bind_ok in Hbody as (hi & s4 & Hhi & Hbody).
      apply lift_ok in Hhi as [Hhi ->].
      apply lift_ok in Hbody as [Hset ->].
      apply setitem_ok in Hset as [Hi ->].
      split; [by rewrite length_insert|]. rewrite Hmaxi. split; [done|lia].
Qed.

(* --------------------------------------------------------------------- *)
(** *** bounds() at concrete inputs *)
(* --------------------------------------------------------------------- *)

Lemma bounds_returns_witness :
  length [(Scalar (q 0 1), Scalar (q 1 1));
          (Scalar (q 0 1), Scalar (q 2 1));
          (Scalar (q 0 1), Scalar (q 4 1))] = 3
  ∧ Forall (λ pv, bounds_usable 3 pv.2) mixed_bounds.
Proof.
  apply (bounds_returns (start_state mixed_bounds [q 0 1; q 0 1; q 0 1])
           [(Scalar (q 0 1), Scalar (q 1 1));
            (Scalar (q 0 1), Scalar (q 2 1));
            (Scalar (q 0 1), Scalar (q 4 1))]
           (start_state mixed_bounds [q 0 1; q 0 1; q 0 1])).
  vm_compute. reflexivity.
Defined.

(* --------------------------------------------------------------------- *)
(** *** calibration() *)
(* --------------------------------------------------------------------- *)

Lemma broadcast2_single f (a : list value) y :
  broadcast2 f a [y] = Ok ((λ x, f x y) <$> a).
Proof.
  unfold broadcast2. case_decide as Hlen; [|by destruct a as [|? [|??]]].
  by destruct a as [|x [|??]].
Qed.

Lemma power_fin_zero x k :
  (x == 0)%Q → ∃ y, power (Fin x) (S k) = Fin y ∧ (y == 0)%Q.
Proof.
  intros Hx. induction k as [|k (y & Hy & Hy0)].
  - exists (x * 1)%Q. split; [reflexivity|]. rewrite Hx. lra.
  - change (power (Fin x) (S (S k))) with (mul (Fin x) (power (Fin x) (S k))).
    rewrite Hy. exists (x * y)%Q. split; [reflexivity|]. rewrite Hx. lra.
Qed.

Lemma sum_zeros (l : list value) :
  Forall (λ t, ∃ y, t = Fin y ∧ (y == 0)%Q) l →
  ∃ s, Np.sum l = Fin s ∧ (s == 0)%Q.
Proof.
  unfold Np.sum. generalize zero, (ex_intro (λ y, zero = Fin y ∧ (y == 0)%Q) 0%Q
                                     (conj eq_refl (Qeq_refl 0))).
  induction l as [|t l IH]; intros acc Hacc Hall; [done|].
  apply Forall_cons in Hall as [(y & -> & Hy) Hall].
  destruct Hacc as (a & -> & Ha). cbn [foldl add].
  apply IH; [|done]. eexists. split; [done|]. rewrite Ha, Hy. lra.
Qed.

(** X23: At the pivot wavelength the calibration polynomial is the
    normalisation alone: where an observed wavelength equals the (finite,
    non-zero) ['pivot_wave'], [calibration()] returns ['spec_norm'] for
    that pixel, whatever the finite polynomial coefficients are; the call
    changes nothing. *)
Theorem calibration_at_pivot (wavelength : list value) s j (w p sn : Q) coeffs :
  params (self s) !! "pivot_wave" = Some [Fin p] →
  params (self s) !! "poly_coeffs" = Some coeffs →
  params (self s) !! "spec_norm" = Some [Fin sn] →
  Forall (λ c, isfinite c = true) coeffs →
  wavelength !! j = Some (Fin w) →
  (w == p)%Q → ¬ (p == 0)%Q →
  ∃ cal c,
    calibration wavelength None s = (Ok (Vector cal), s)
    ∧ length cal = length wavelength
    ∧ cal !! j = Some (Fin c)
    ∧ (c == sn)%Q.
Proof.
  intros Hpivot Hcoeffs Hnorm Hfin Hw Hwp Hp0.
  unfold calibration. unfold bind at 1. cbn [ret].
  unfold bind at 1, get_self at 1. rewrite Hpivot.
  unfold bind at 1, lift at 1. rewrite broadcast2_single.
  unfold bind at 1. rewrite Hcoeffs. cbn [key]. unfold ret at 1.
  unfold bind at 1. rewrite Hnorm. cbn [key]. unfold ret at 1.
  unfold bind at 1, lift at 1. rewrite broadcast2_single. unfold ret.
  set (x := (λ r, sub r one) <$> ((λ x, true_divide x (Fin p)) <$> wavelength)).
  assert (∃ xq, x !! j = Some (Fin xq) ∧ (xq == 0)%Q) as (xq & Hxj & Hxq).
  { unfold x. rewrite !list_lookup_fmap, Hw. cbn [fmap option_fmap option_map true_divide].
    destruct (Qeq_bool p 0) eqn:E; [by apply Qeq_bool_iff in E|].
    cbn. eexists. split; [done|]. rewrite Hwp. field. done. }
  assert (∃ sq, Np.sum (imap (λ m c, mul (power (Fin xq) (S m)) c) coeffs) = Fin sq
                ∧ (sq == 0)%Q) as (sq & Hsum & Hsq).
  { apply sum_zeros. apply Forall_lookup. intros m t Ht.
    rewrite list_lookup_imap in Ht.
    destruct (coeffs !! m) as [c|] eqn:Ec; [|done]. injection Ht as <-.
    rewrite Forall_lookup in Hfin. specialize (Hfin m c Ec).
    destruct c as [cq| | |]; try done.
    change (∃ y, mul (power (Fin xq) (S m)) (Fin cq) = Fin y ∧ (y == 0)%Q).
    destruct (power_fin_zero xq m Hxq) as (y & -> & Hy).
    exists (y * cq)%Q. split; [reflexivity|]. rewrite Hy. lra. }
  eexists. exists ((1 + sq) * sn)%Q. split; [reflexivity|]. split_and!.
  - unfold x. by rewrite !length_fmap.
  - rewrite !list_lookup_fmap, Hxj. cbn [fmap option_fmap option_map].
    by rewrite Hsum.
  - rewrite Hsq. lra.
Qed.

Lemma calibration_frame (wavelength : list value) s :
  (calibration wavelength None s).2 = s.
Proof.
  unfold calibration. unfold bind at 1. cbn [ret].
  unfold bind at 1, get_self at 1.
  destruct (params (self s) !! "pivot_wave") as [pivot|]; [|done].
  unfold bind at 1, lift at 1.
  destruct (broadcast2 true_divide wavelength pivot) as [ratio|e]; [|done].
  unfold bind at 1.
  destruct (params (self s) !! "poly_coeffs") as [coeffs|]; [|done].
  cbn [key]. unfold ret at 1. unfold bind at 1.
  destruct (params (self s) !! "spec_norm") as [norm|]; [|done].
  cbn [key]. unfold ret at 1. unfold bind at 1, lift at 1.
  by destruct (broadcast2 mul _ norm).
Qed.

(* --------------------------------------------------------------------- *)
(** *** mean_model() *)
(* --------------------------------------------------------------------- *)

Lemma foldl_min_elem (l xs : list value) m0 :
  m0 ∈ l → xs ⊆ l → foldl (λ m y, if lt y m then y else m) m0 xs ∈ l.
Proof.
  revert m0. induction xs as [|y ys IH]; intros m0 Hm0 Hsub; [done|].
  cbn [foldl]. apply IH.
  - destruct (lt y m0); [|done]. apply Hsub, list_elem_of_here.
  - intros z Hz. by apply Hsub, list_elem_of_further.
Qed.

Lemma array_min_elem (a : list value) m : array_min a = Some m → m ∈ a.
Proof.
  destruct a as [|x xs]; [done|]. cbn [array_min]. intros [= <-].
  apply foldl_min_elem; [apply list_elem_of_here|].
  intros z Hz. by apply list_elem_of_further.
Qed.

Lemma tiny_positive n m :
  gt m zero = true → gt (mul (Fin (1 # Pos.of_succ_nat n)) m) zero = true.
Proof.
  destruct m as [mq| | |]; try done. cbn. intros Hm.
  apply Qlt_bool_true in Hm. apply Qlt_bool_true.
  apply Qmult_lt_0_compat; [reflexivity|done].
Qed.

Lemma floor_not_negative tiny x :
  gt tiny zero = true → lt (if lt x tiny then tiny else x) zero = false.
Proof.
  intros Ht. destruct (lt x tiny) eqn:E.
  - destruct tiny as [tq| | |]; try done. cbn in *.
    apply Qlt_bool_true in Ht. apply Qlt_bool_false. lra.
  - destruct x as [xq| | |], tiny as [tq| | |]; try done.
    cbn in *. apply Qlt_bool_true in Ht. apply Qlt_bool_false in E.
    apply Qlt_bool_false. lra.
Qed.

(** X21: [mean_model] returns no negative flux: whenever it returns, no
    pixel of the spectrum is below zero (a pixel below
    [tiny = 1.0/len(spec) * min(positive pixels)] has been set to [tiny],
    which is not below zero), and at least one pixel is positive. When
    [sps] delivers no positive pixel there is nothing to scale the floor
    by, and the call does not return. *)
Theorem mean_model_positive (phot_t extras_t : Type)
    (get_spectrum : gmap string (list value) → M (list value * phot_t * extras_t))
    theta s spec phot extras s' :
  mean_model phot_t extras_t get_spectrum theta s = (Returns (spec, phot, extras), s') →
  Forall (λ x, lt x zero = false) spec
  ∧ ∃ x, x ∈ spec ∧ gt x zero = true.
Proof.
  unfold mean_model.
  destruct (bind _ _ s) as [[[[spec0 phot0] extras0]|e] s1]; [|done].
  destruct (length spec0) as [|n] eqn:Hlen; [done|].
  destruct (array_min _) as [m|] eqn:Hmin; [|done].
  intros [= <- <- <- <-].
  apply array_min_elem in Hmin. apply list_elem_of_filter in Hmin as [Hpos Hm].
  pose proof (tiny_positive n m Hpos) as Htiny.
  split.
  - apply Forall_fmap, Forall_forall. intros x _. by apply floor_not_negative.
  - exists (if lt m (mul (Fin (1 # Pos.of_succ_nat n)) m)
            then mul (Fin (1 # Pos.of_succ_nat n)) m else m).
    split.
    + apply list_elem_of_fmap. by exists m.
    + by destruct (lt m _).
Qed.

(** X22: [mean_model] expands [theta] before it asks [sps] for a spectrum: a
    vector whose length is not [ndim] ends the call with the
    [AssertionError] of [set_parameters], [sps] is not called and nothing
    has changed. *)
Theorem mean_model_wrong_length (phot_t extras_t : Type)
    (get_spectrum : gmap string (list value) → M (list value * phot_t * extras_t))
    theta s th :
  heap s !! theta = Some th →
  length th ≠ ndim (self s) →
  mean_model phot_t extras_t get_spectrum theta s = (Fails (Exn AssertionError), s).
Proof.
  intros Hth Hlen. unfold mean_model. unfold bind at 1.
  assert (set_parameters theta s = (Raise AssertionError, s)) as ->; [|done].
  unfold set_parameters.
  unfold bind at 1, load at 1. rewrite Hth.
  unfold bind at 1, get_self at 1.
  unfold bind at 1. by rewrite bool_decide_eq_false_2.
Qed.

(* --------------------------------------------------------------------- *)
(** *** lnprob_grad() *)
(* --------------------------------------------------------------------- *)

Section posterior_gradient.
Variable wavelength : list value.
Variable spectrum_given filters_given : bool.
Variables components nebula model_t : Type.
Variable get_components : M components.
Variable nebular : M nebula.
Variable mean : components → arg → nebula → value → ThetaParameters → result model_t.
Variable spec_gradient : model_t → arg → components → ThetaParameters → result (list value).
Variable phot_gradient : model_t → components → ThetaParameters → result (list value).

Local Notation "'lnprob_grad''" :=
  (lnprob_grad wavelength spectrum_given filters_given components nebula model_t
     get_components nebular mean spec_gradient phot_gradient).

(** X25: The gate of [lnprob_grad]: gradients exist for the amplitudes only.
    Unless the descriptor consists of the single block ['mass'] and
    [theta] has exactly its [N] elements, the call raises [ValueError]
    before anything is computed; a descriptor without a block ['mass'] is
    a [KeyError] of the gate itself. In both cases nothing has changed and
    [sps] has not been called. *)
Theorem lnprob_grad_gate theta s th :
  heap s !! theta = Some th →
  (desc_get "mass" (theta_desc (self s)) = None →
   lnprob_grad' theta s = (Raise KeyError, s))
  ∧ (∀ v, desc_get "mass" (theta_desc (self s)) = Some v →
       length th ≠ N v ∨ (theta_desc (self s)).*1 ≠ ["mass"%string] →
       lnprob_grad' theta s = (Raise ValueError, s)).
Proof.
  intros Hth. split.
  - intros Hmass. unfold lnprob_grad.
    unfold bind at 1, load at 1. rewrite Hth.
    unfold bind at 1, get_self at 1.
    unfold bind at 1. by rewrite Hmass.
  - intros v Hmass Hbad. unfold lnprob_grad.
    unfold bind at 1, load at 1. rewrite Hth.
    unfold bind at 1, get_self at 1.
    unfold bind at 1. rewrite Hmass. cbn [key]. unfold ret at 1.
    unfold bind at 1.
    assert (bool_decide (length th = N v)
            && bool_decide ((theta_desc (self s)).*1 = ["mass"%string]) = false) as ->.
    { destruct Hbad as [Hbad|Hbad].
      - by rewrite bool_decide_eq_false_2.
      - rewrite (bool_decide_eq_false_2 _ Hbad). apply andb_false_r. }
    done.
Qed.

Lemma lnprob_grad_gate_open theta s g s' :
  lnprob_grad' theta s = (Ok g, s') →
  ∃ th v, heap s !! theta = Some th
    ∧ theta_desc (self s) = [("mass"%string, v)]
    ∧ length th = N v.
Proof.
  unfold lnprob_grad. intros Hrun.
  apply bind_ok in Hrun as (th & s1 & Hload & Hrun).
  unfold load in Hload. destruct (heap s !! theta) as [th'|] eqn:Hth; [|done].
  injection Hload as Hl1 Hl2. subst th' s1.
  apply bind_ok in Hrun as (me & s2 & Hme & Hrun).
  unfold get_self in Hme. injection Hme as Hm1 Hm2. subst me s2.
  apply bind_ok in Hrun as (v & s3 & Hmass & Hrun).
  apply key_ok in Hmass as [Hmass ->].
  apply bind_ok in Hrun as ([] & s4 & Hgate & _).
  destruct (bool_decide (length th = N v)) eqn:E1; [|done].
  destruct (bool_decide ((theta_desc (self s)).*1 = ["mass"%string])) eqn:E2; [|done].
  apply bool_decide_eq_true_1 in E1, E2.
  exists th, v. split_and!; [done| |done].
  destruct (theta_desc (self s)) as [|[p v'] [|??]]; try done.
  cbn in E2, Hmass. injection E2 as ->.
  rewrite decide_True in Hmass by done. by injection Hmass as ->.
Qed.

Lemma set_parameters_ok theta s s1 :
  set_parameters theta s = (Ok tt, s1) →
  ∃ th, heap s !! theta = Some th
    ∧ s1 = with_params s (expanded (theta_desc (self s)) th (params (self s))).
Proof.
  intros Hrun. pose proof Hrun as Hrun'. unfold set_parameters in Hrun.
  apply bind_ok in Hrun as (th & s2 & Hload & Hrun).
  unfold load in Hload. destruct (heap s !! theta) as [th'|] eqn:Hth; [|done].
  injection Hload as Hl1 Hl2. subst th' s2.
  apply bind_ok in Hrun as (me & s3 & Hme & Hrun).
  unfold get_self in Hme. injection Hme as Hm1 Hm2. subst me s3.
  apply bind_ok in Hrun as ([] & s4 & Hassert & _).
  unfold assert in Hassert. case_bool_decide as Hlen; [|done].
  exists th. split; [done|].
  rewrite (set_parameters_run theta th s Hth Hlen) in Hrun'. by injection Hrun' as <-.
Qed.

(** X26: Gradients of the jitter term are not written: with a non-zero
    ['jitter'] among the parameters [lnprob_grad] never returns a
    gradient, whatever [sps] and the observations are (as long as [sps]
    and [nebular] leave the jitter parameter alone). *)
Theorem lnprob_grad_rejects_jitter theta s x :
  (∀ t, params (self (get_components t).2) !! "jitter" = params (self t) !! "jitter") →
  (∀ t, params (self (nebular t).2) !! "jitter" = params (self t) !! "jitter") →
  params (self s) !! "jitter" = Some [x] →
  ne_zero x = true →
  ∀ g s', lnprob_grad' theta s ≠ (Ok g, s').
Proof.
  intros Hsps Hneb Hjit Hx g s' Hrun.
  destruct (lnprob_grad_gate_open _ _ _ _ Hrun) as (th & v & Hth & Hdesc & Hlen).
  unfold lnprob_grad in Hrun.
  apply bind_ok in Hrun as (th' & s1 & Hload & Hrun).
  unfold load in Hload. rewrite Hth in Hload.
  injection Hload as Hl1 Hl2. subst th' s1.
  apply bind_ok in Hrun as (me & s2 & Hme & Hrun).
  unfold get_self in Hme. injection Hme as Hm1 Hm2. subst me s2.
  apply bind_ok in Hrun as (v' & s3 & Hkey & Hrun).
  apply key_ok in Hkey as [_ ->].
  apply bind_ok in Hrun as ([] & s4 & Hgate & Hrun).
  assert (s4 = s) as ->.
  { destruct (_ && _); [by injection Hgate as <-|done]. }
  apply bind_ok in Hrun as ([] & s5 & Hset & Hrun).
  assert (params (self s5) !! "jitter" = Some [x]) as Hj5.
  { apply set_parameters_ok in Hset as (th' & _ & ->). cbn [with_params self params].
    rewrite expanded_notin; [done|]. rewrite Hdesc. cbn.
    intros Hin. apply list_elem_of_In in Hin. cbn in Hin.
    by destruct Hin as [?|[]]. }
  apply bind_ok in Hrun as (comps & s6 & Hcomps & Hrun).
  assert (params (self s6) !! "jitter" = Some [x]) as Hj6.
  { unfold call_sps in Hcomps.
    pose proof (Hsps (State (heap s5) (self s5) (S (model_calls s5)))) as H.
    rewrite Hcomps in H. cbn [snd self] in H. by rewrite H. }
  apply bind_ok in Hrun as (cal & s7 & Hcal & Hrun).
  assert (s7 = s6) as ->.
  { pose proof (calibration_frame wavelength s6) as H. by rewrite Hcal in H. }
  apply bind_ok in Hrun as (neb & s8 & Hnebular & Hrun).
  assert (params (self s8) !! "jitter" = Some [x]) as Hj8.
  { pose proof (Hneb s6) as H. rewrite Hnebular in H. cbn [snd] in H. by rewrite H. }
  apply bind_ok in Hrun as (me & s9 & Hme & Hrun).
  unfold get_self in Hme. injection Hme as Hm1 Hm2. subst me s9.
  apply bind_ok in Hrun as (model & s10 & Hmean & Hrun).
  apply lift_ok in Hmean as [_ ->].
  apply bind_ok in Hrun as (gradp_spec & s11 & _ & Hrun).
  apply bind_ok in Hrun as (jitter & s12 & Hjitter & Hrun).
  apply lift_ok in Hjitter as [Hjitter ->].
  unfold jitter_active in Hjitter. rewrite Hj8 in Hjitter. cbn in Hjitter.
  rewrite Hx in Hjitter. injection Hjitter as <-.
  by apply bind_ok in Hrun as ([] & s13 & Hraise & _).
Qed.

Lemma slice_all {A} (a : list A) n : length a = n → slice 0 (0 + n) a = a.
Proof. intros <-. unfold slice. cbn. rewrite Nat.sub_0_r. apply firstn_all. Qed.

Lemma iadd_slice_whole dst t n :
  length dst = n →
  (∀ ys, t = Vector ys → length ys = n) →
  iadd_slice 0 (0 + n) t dst = Ok (added dst t).
Proof.
  intros Hlen Ht. unfold iadd_slice. cbv zeta. rewrite (slice_all dst n Hlen).
  rewrite Hlen. cbn [take app Nat.add]. rewrite <-Hlen, drop_all.
  destruct t as [y|ys]; [by rewrite app_nil_r|]. rewrite decide_True.
  - by rewrite app_nil_r.
  - rewrite Hlen. by apply Ht.
Qed.

Lemma length_added g t n :
  length g = n → (∀ ys, t = Vector ys → length ys = n) → length (added g t) = n.
Proof.
  intros Hg Ht. destruct t as [y|ys]; cbn.
  - by rewrite length_fmap.
  - rewrite length_zip_with, (Ht ys eq_refl). lia.
Qed.

Lemma channel_run (given : bool) (r : result (list value)) gs s :
  (given = true → r = Ok gs) →
  (if given then
     g <- lift r ;; ret ({[ "mass"%string := g ]} : gmap string (list value))
   else ret ∅) s
  = (Ok (if given then {[ "mass"%string := gs ]} else ∅), s).
Proof. destruct given; [|done]. intros Hr. by rewrite (Hr eq_refl). Qed.

Lemma dict_get_channel (given : bool) gs :
  dict_get (if given then {[ "mass"%string := gs ]} else ∅) "mass" = channel given gs.
Proof. by destruct given. Qed.

Lemma lnp_prior_grad_run theta s th :
  heap s !! theta = Some th →
  gradients_defined (theta_desc (self s)) th →
  lnp_prior_grad theta s
  = (Ok (fresh (dom (heap s))),
     with_heap s (<[fresh (dom (heap s))
                    := foldl (scatter th) (zeros_like th) (theta_desc (self s)).*2]>
                    (heap s))).
Proof.
  intros Hth Hdef.
  set (l := fresh (dom (heap s))).
  assert (heap s !! l = None) as Hl.
  { apply not_elem_of_dom. apply is_fresh. }
  assert (l ≠ theta) as Hne by congruence.
  unfold lnp_prior_grad.
  unfold bind at 1, load at 1. rewrite Hth.
  unfold bind at 1, alloc at 1. fold l.
  unfold bind at 1, get_self at 1. cbn [self].
  unfold bind at 1.
  rewrite (lnp_prior_grad_loop theta th l _ _ (zeros_like th)); cbn [heap].
  - unfold ret, with_heap. cbn. by rewrite insert_insert_eq.
  - by rewrite lookup_insert_ne.
  - by rewrite lookup_insert_eq.
  - done.
  - unfold zeros_like, zeros. by rewrite length_replicate.
  - exact Hdef.
Qed.

(** X27: The assembly of the gradient. Once the gate is passed (the single
    block ['mass'] at offset 0, [theta] of its length), with no jitter
    and collaborators that succeed, [lnprob_grad] returns a fresh array:
    the amplitudes' prior gradient, plus the spectroscopic term, plus the
    photometric term, plus the (empty) jitter term; a term whose data the
    observations lack counts as 0. [theta] is expanded into
    [self.params['mass']] and [sps] has been called once. *)
Theorem lnprob_grad_sum theta s th v f comps neb cal model gs gp :
  let me := Self (theta_desc (self s)) (<["mass"%string := th]> (params (self s)))
                 (ndim (self s)) in
  let s1 := State (heap s) me (S (model_calls s)) in
  theta_desc (self s) = [("mass"%string, v)] →
  i0 v = 0 → ndim (self s) = N v →
  heap s !! theta = Some th → length th = N v →
  prior_gradient_function v = Some f →
  length (f th (prior_args v)) = N v →
  (∀ t, get_components t = (Ok comps, t)) →
  (∀ t, nebular t = (Ok neb, t)) →
  (calibration wavelength None s1).1 = Ok cal →
  mean comps cal neb sky me = Ok model →
  (spectrum_given = true →
   spec_gradient model cal comps me = Ok gs ∧ length gs = N v) →
  jitter_active (params me) = Ok false →
  (filters_given = true →
   phot_gradient model comps me = Ok gp ∧ length gp = N v) →
  ∃ grad s',
    lnprob_grad' theta s = (Ok grad, s')
    ∧ (grad ∉ dom (heap s))
    ∧ heap s' !! grad
      = Some (added (added (added (f th (prior_args v)) (channel spectrum_given gs))
                         (channel filters_given gp))
                   (Scalar (Fin 0)))
    ∧ heap s' !! theta = Some th
    ∧ self s' = me
    ∧ model_calls s' = S (model_calls s).
Proof.
  intros me s1 Hdesc Hi0 Hndim Hth Hlen Hf Hflen Hsps Hneb Hcal Hmean Hspec Hjit Hphot.
  set (l := fresh (dom (heap s))).
  assert (heap s !! l = None) as Hl.
  { apply not_elem_of_dom. apply is_fresh. }
  assert (l ≠ theta) as Hne by congruence.
  assert (set_parameters theta s = (Ok tt, State (heap s) me (model_calls s))) as Hset.
  { rewrite (set_parameters_run theta th s Hth) by congruence.
    unfold with_params, me. do 3 f_equal. rewrite Hdesc. unfold expanded. cbn.
    rewrite Hi0. by rewrite (slice_all th (N v) Hlen). }
  assert (calibration wavelength None s1 = (Ok cal, s1)) as Hcal'.
  { pose proof (calibration_frame wavelength s1) as H.
    destruct (calibration wavelength None s1) as [r s2]. cbn in *. by subst. }
  assert (lnp_prior_grad theta s1
          = (Ok l, with_heap s1 (<[l := f th (prior_args v)]> (heap s)))) as Hgrad.
  { rewrite (lnp_prior_grad_run theta s1 th); [| done |].
    - cbn [heap s1]. fold l. do 3 f_equal. cbn [self s1 me theta_desc].
      rewrite Hdesc. cbn [fmap list_fmap foldl snd]. unfold scatter, block_gradient.
      rewrite Hf, Hi0, (slice_all th (N v) Hlen). unfold put. cbn [take app Nat.add].
      rewrite Hflen. unfold zeros_like, zeros.
      rewrite drop_ge by (rewrite length_replicate; lia). apply app_nil_r.
    - cbn [self s1 me theta_desc]. rewrite Hdesc. constructor; [|constructor].
      cbn [snd]. split; [by rewrite Hf|]. unfold block_gradient.
      rewrite Hf, Hi0, (slice_all th (N v) Hlen). congruence. }
  assert (∀ ys, channel spectrum_given gs = Vector ys → length ys = N v) as Hc1.
  { unfold channel. intros ys. destruct spectrum_given; [|done].
    intros [= <-]. by destruct Hspec. }
  assert (∀ ys, channel filters_given gp = Vector ys → length ys = N v) as Hc2.
  { unfold channel. intros ys. destruct filters_given; [|done].
    intros [= <-]. by destruct Hphot. }
  pose proof (length_added _ _ _ Hflen Hc1) as Hl1.
  pose proof (length_added _ _ _ Hl1 Hc2) as Hl2.
  exists l. eexists. split_and!.
  - unfold lnprob_grad.
    unfold bind at 1, load at 1. rewrite Hth.
    unfold bind at 1, get_self at 1.
    unfold bind at 1. rewrite Hdesc. cbn [desc_get]. rewrite decide_True by done.
    cbn [key]. unfold ret at 1.
    unfold bind at 1.
    rewrite (bool_decide_eq_true_2 _ Hlen).
    rewrite bool_decide_eq_true_2 by done. cbn [andb]. unfold ret at 1.
    unfold bind at 1. rewrite Hset.
    unfold bind at 1, call_sps at 1. rewrite Hsps. cbn [heap self model_calls]. fold s1.
    unfold bind at 1. rewrite Hcal'.
    unfold bind at 1. rewrite Hneb.
    unfold bind at 1, get_self at 1. cbn [self s1].
    unfold bind at 1, lift at 1. rewrite Hmean.
    unfold bind at 1.
    rewrite (channel_run spectrum_given _ gs) by (intros H; by destruct (Hspec H)).
    unfold bind at 1, lift at 1. rewrite Hjit.
    unfold bind at 1. unfold ret at 1.
    unfold bind at 1.
    rewrite (channel_run filters_given _ gp) by (intros H; by destruct (Hphot H)).
    unfold bind at 1. rewrite Hgrad.
    unfold bind at 1. cbn [me theta_desc]. rewrite Hdesc.
    erewrite for_each_cons_ok.
    2:{ rewrite Hi0.
        erewrite for_each_cons_ok.
        2:{ unfold bind at 1, load at 1. cbn [with_heap heap].
            rewrite lookup_insert_eq.
            unfold bind at 1, lift at 1. rewrite dict_get_channel.
            rewrite (iadd_slice_whole _ _ (N v)) by done.
            unfold store. reflexivity. }
        erewrite for_each_cons_ok.
        2:{ unfold bind at 1, load at 1. cbn [heap].
            rewrite lookup_insert_eq.
            unfold bind at 1, lift at 1. rewrite dict_get_channel.
            rewrite (iadd_slice_whole _ _ (N v)) by done.
            unfold store. reflexivity. }
        erewrite for_each_cons_ok.
        2:{ unfold bind at 1, load at 1. cbn [heap].
            rewrite lookup_insert_eq.
            unfold bind at 1, lift at 1.
            assert (dict_get ∅ "mass" = Scalar (Fin 0)) as -> by done.
            rewrite (iadd_slice_whole _ _ (N v)) by done.
            unfold store. reflexivity. }
        cbn [for_each]. unfold ret. reflexivity. }
    cbn [for_each]. unfold ret. reflexivity.
  - apply is_fresh.
  - cbn [heap]. by rewrite lookup_insert_eq.
  - cbn [heap with_heap]. by rewrite !lookup_insert_ne by done.
  - done.
  - done.
Qed.
End posterior_gradient.

(* --------------------------------------------------------------------- *)
(** *** The SedModel theorems at concrete inputs *)
(* --------------------------------------------------------------------- *)

Lemma calibration_at_pivot_witness :
  ∃ cal c,
    calibration [q 5000 1; q 5500 1; q 6000 1] None with_calibration
    = (Ok (Vector cal), with_calibration)
    ∧ length cal = 3
    ∧ cal !! 1 = Some (Fin c)
    ∧ (c == 2)%Q.
Proof.
  apply (calibration_at_pivot [q 5000 1; q 5500 1; q 6000 1] with_calibration 1
           5500 5500 2 [q 1 10; q (-1) 5]).
  - reflexivity.
  - reflexivity.
  - reflexivity.
  - repeat constructor.
  - reflexivity.
  - reflexivity.
  - vm_compute. discriminate.
Defined.

Lemma mean_model_wrong_length_witness :
  mean_model unit unit three_pixels 1%positive (start_state no_bounds [q 1 1; q 2 1])
  = (Fails (Exn AssertionError), start_state no_bounds [q 1 1; q 2 1]).
Proof.
  apply (mean_model_wrong_length unit unit three_pixels 1%positive
           (start_state no_bounds [q 1 1; q 2 1]) [q 1 1; q 2 1]).
  - reflexivity.
  - vm_compute. discriminate.
Defined.

Lemma lnprob_grad_gate_witness :
  lnprob_grad [] false false unit unit unit (ret tt) (ret tt)
    (λ _ _ _ _ _, Ok tt) (λ _ _ _ _, Ok []) (λ _ _ _, Ok [])
    1%positive (start_state two_blocks [q 1 1; q 2 1; q 3 1])
  = (Raise ValueError, start_state two_blocks [q 1 1; q 2 1; q 3 1]).
Proof.
  destruct (lnprob_grad_gate [] false false unit unit unit (ret tt) (ret tt)
              (λ _ _ _ _ _, Ok tt) (λ _ _ _ _, Ok []) (λ _ _ _, Ok [])
              1%positive (start_state two_blocks [q 1 1; q 2 1; q 3 1])
              [q 1 1; q 2 1; q 3 1]) as [_ H].
  - reflexivity.
  - apply (H (Block 0 2 None (Some (λ x _, (λ xi, sub zero xi) <$> x)) no_args None None)).
    + reflexivity.
    + left. vm_compute. discriminate.
Defined.

Lemma lnprob_grad_rejects_jitter_witness :
  lnprob_grad [] false false unit unit unit (ret tt) (ret tt)
    (λ _ _ _ _ _, Ok tt) (λ _ _ _ _, Ok []) (λ _ _ _, Ok [])
    1%positive with_jitter
  ≠ (Ok 2%positive, with_jitter).
Proof.
  apply (lnprob_grad_rejects_jitter [] false false unit unit unit (ret tt) (ret tt)
           (λ _ _ _ _ _, Ok tt) (λ _ _ _ _, Ok []) (λ _ _ _, Ok [])
           1%positive with_jitter (q 1 10)).
  - reflexivity.
  - reflexivity.
  - reflexivity.
  - reflexivity.
Defined.

Lemma lnprob_grad_sum_witness :
  ∃ grad s',
    lnprob_grad [] true false unit unit unit (ret tt) (ret tt)
      (λ _ _ _ _ _, Ok tt) (λ _ _ _ _, Ok [q 1 2; q 1 2]) (λ _ _ _, Ok [])
      1%positive (start_state mass_only [q 1 1; q 2 1])
    = (Ok grad, s')
    ∧ (grad ∉ dom (heap (start_state mass_only [q 1 1; q 2 1])))
    ∧ heap s' !! grad
      = Some (added (added (added (pull_to_zero [q 1 1; q 2 1] no_args)
                               (channel true [q 1 2; q 1 2]))
                         (channel false []))
                   (Scalar (Fin 0)))
    ∧ heap s' !! 1%positive = Some [q 1 1; q 2 1]
    ∧ self s' = Self mass_only {[ "mass"%string := [q 1 1; q 2 1] ]} 2
    ∧ model_calls s' = 1.
Proof.
  apply (lnprob_grad_sum [] true false unit unit unit (ret tt) (ret tt)
           (λ _ _ _ _ _, Ok tt) (λ _ _ _ _, Ok [q 1 2; q 1 2]) (λ _ _ _, Ok [])
           1%positive (start_state mass_only [q 1 1; q 2 1]) [q 1 1; q 2 1]
           (Block 0 2 None (Some pull_to_zero) no_args None None) pull_to_zero
           tt tt (Scalar one) tt [q 1 2; q 1 2] []).
  - reflexivity.
  - reflexivity.
  - reflexivity.
  - reflexivity.
  - reflexivity.
  - reflexivity.
  - reflexivity.
  - reflexivity.
  - reflexivity.
  - reflexivity.
  - reflexivity.
  - split; reflexivity.
  - reflexivity.
  - discriminate.
Defined.

Lemma mean_model_positive_witness :
  Forall (λ x, lt x zero = false) [q 2 3; q 2 1; q 4 1]
  ∧ ∃ x, x ∈ [q 2 3; q 2 1; q 4 1] ∧ gt x zero = true.
Proof.
  apply (mean_model_positive unit unit three_pixels 1%positive
           (start_state no_bounds [q 1 1]) [q 2 3; q 2 1; q 4 1] tt tt
           (State {[ 1%positive := [q 1 1] ]}
                  (Self no_bounds {[ "mass"%string := [q 1 1] ]} 1) 1)).
  vm_compute. reflexivity.
Defined.

(* --------------------------------------------------------------------- *)
(** *** add_obs() *)
(* --------------------------------------------------------------------- *)

(** X20: [add_obs] rescales in place, by one factor taken before
    anything is changed: with [rescale=True] the median [sc] of the
    masked spectrum is stored under ['scale'], and then every pixel of the
    caller's spectrum array and of the caller's uncertainty array is
    divided by that same [sc]; the dictionary is otherwise the caller's and
    no other array changes. The two arrays must be distinct objects (an
    array that is both would be divided twice). *)
Theorem add_obs_rescales (median : list value → value) obs s l1 l2 m
    spectrum unc filters selected :
  obs !! "filters" = Some filters →
  obs !! "spectrum" = Some (ArrayAt l1) →
  obs !! "mask" = Some (MaskOf m) →
  obs !! "unc" = Some (ArrayAt l2) →
  l1 ≠ l2 →
  heap s !! l1 = Some spectrum →
  heap s !! l2 = Some unc →
  boolean_index spectrum m = Ok selected →
  ∃ s',
    add_obs median obs true s
    = (Ok (<["scale" := Number (median selected)]> obs, filters), s')
    ∧ self s' = self s
    ∧ (∀ l, l ≠ l1 → l ≠ l2 → heap s' !! l = heap s !! l)
    ∧ heap s' !! l1 = Some ((λ x, true_divide x (median selected)) <$> spectrum)
    ∧ heap s' !! l2 = Some ((λ x, true_divide x (median selected)) <$> unc).
Proof.
  intros Hfilters Hsp Hmask Hunc Hne Hl1 Hl2 Hsel.
  eexists. split_and!.
  - unfold add_obs. unfold bind at 1. rewrite Hfilters. cbn [key]. unfold ret at 1.
    unfold bind at 1. rewrite Hsp. cbn [key]. unfold ret at 1.
    unfold bind at 1. rewrite Hmask. cbn [key]. unfold ret at 1.
    unfold bind at 1. unfold masked_index. unfold bind at 1, load at 1. rewrite Hl1.
    unfold lift at 1. rewrite Hsel.
    unfold bind at 1. rewrite lookup_insert_ne by done. rewrite Hsp.
    cbn [key]. unfold ret at 1.
    unfold bind at 1. unfold idiv at 1. unfold bind at 1, load at 1. rewrite Hl1.
    unfold bind at 1, store at 1. unfold ret at 1.
    unfold bind at 1. rewrite lookup_insert_ne by done.
    rewrite lookup_insert_ne by done. rewrite Hunc. cbn [key]. unfold ret at 1.
    unfold bind at 1. unfold idiv at 1. unfold bind at 1, load at 1. cbn [heap].
    rewrite lookup_insert_ne by done. rewrite Hl2.
    unfold bind at 1, store at 1. unfold ret.
    f_equal. f_equal. f_equal.
    rewrite (insert_id (<["spectrum":=ArrayAt l1]> _)).
    + rewrite insert_id; [done|]. by rewrite lookup_insert_ne.
    + rewrite lookup_insert_ne by done. by rewrite lookup_insert_ne.
  - done.
  - intros l H1 H2. cbn [heap]. by rewrite !lookup_insert_ne.
  - cbn [heap]. rewrite lookup_insert_ne by done. by rewrite lookup_insert_eq.
  - cbn [heap]. by rewrite lookup_insert_eq.
Qed.

Lemma add_obs_rescales_witness :
  ∃ s',
    add_obs only_value two_pixels true observing
    = (Ok (<["scale" := Number (only_value [q 2 1])]> two_pixels, Opaque), s')
    ∧ self s' = self observing
    ∧ (∀ l, l ≠ 1%positive → l ≠ 2%positive → heap s' !! l = heap observing !! l)
    ∧ heap s' !! 1%positive
      = Some ((λ x, true_divide x (only_value [q 2 1])) <$> [q 2 1; q 4 1])
    ∧ heap s' !! 2%positive
      = Some ((λ x, true_divide x (only_value [q 2 1])) <$> [q 1 1; q 1 2]).
Proof.
  apply (add_obs_rescales only_value two_pixels observing 1%positive 2%positive
           [true; false] [q 2 1; q 4 1] [q 1 1; q 1 2] Opaque [q 2 1]).
  - reflexivity.
  - reflexivity.
  - reflexivity.
  - reflexivity.
  - discriminate.
  - reflexivity.
  - reflexivity.
  - reflexivity.
Defined.

(* --------------------------------------------------------------------- *)
(** *** The prior gradient: what a successful call implies *)
(* --------------------------------------------------------------------- *)

Lemma for_each_ok {A} (I : state → Prop) (Q : A → Prop) (xs : list A)
    (body : A → M unit) :
  (∀ x s s', x ∈ xs → I s → body x s = (Ok tt, s') → I s' ∧ Q x) →
  ∀ s s', I s → for_each xs body s = (Ok tt, s') → I s' ∧ Forall Q xs.
Proof.
  induction xs as [|x xs IH]; intros Hbody s s' HI Hrun.
  - cbn in Hrun. unfold ret in Hrun. injection Hrun as <-. by split.
  - cbn [for_each] in Hrun. apply bind_ok in Hrun as ([] & s1 & Hx & Hrun).
    destruct (Hbody _ _ _ (list_elem_of_here _ _) HI Hx) as [HI1 HQ].
    destruct (IH (λ x s s' Hin, Hbody x s s' (list_elem_of_further _ _ _ Hin))
                s1 s' HI1 Hrun) as [HIr HQs].
    split; [done|by constructor].
Qed.

(** X11: [lnp_prior_grad] has no default for a block without a gradient:
    whenever it returns, every block of the descriptor has a
    ['prior_gradient_function'], and the result is a fresh array with as
    many entries as [theta] has (not [ndim]: the length of [theta] is not
    checked here). *)
Theorem lnp_prior_grad_returns theta s grad s' :
  lnp_prior_grad theta s = (Ok grad, s') →
  Forall (λ pv, is_Some (prior_gradient_function pv.2)) (theta_desc (self s))
  ∧ (grad ∉ dom (heap s))
  ∧ ∃ th g, heap s !! theta = Some th
      ∧ heap s' !! grad = Some g
      ∧ length g = length th.
Proof.
  unfold lnp_prior_grad. intros Hrun.
  apply bind_ok in Hrun as (th & s1 & Hload & Hrun).
  unfold load in Hload. destruct (heap s !! theta) as [th'|] eqn:Hth; [|done].
  injection Hload as Hl1 Hl2. subst th' s1.
  apply bind_ok in Hrun as (l & s2 & Halloc & Hrun).
  unfold alloc in Halloc. injection Halloc as Ha1 Ha2. subst l s2.
  set (l := fresh (dom (heap s))) in *.
  apply bind_ok in Hrun as (me & s3 & Hme & Hrun).
  unfold get_self in Hme. injection Hme as Hm1 Hm2. subst me s3. cbn [self] in Hrun.
  apply bind_ok in Hrun as ([] & s4 & Hloop & Hret).
  unfold ret in Hret. injection Hret as <- <-.
  apply (for_each_ok (λ t, ∃ g, heap t !! l = Some g ∧ length g = length th)
           (λ pv, is_Some (prior_gradient_function pv.2))) in Hloop.
  - destruct Hloop as [(g & Hg & Hlen) Hall].
    split_and!; [done|apply is_fresh|by exists th, g].
  - clear. intros [p v] t t' _ (g & Hg & Hlen) Hbody. cbn [snd].
    apply bind_ok in Hbody as (f & t1 & Hf & Hbody).
    apply key_ok in Hf as [Hf ->].
    apply bind_ok in Hbody as (th1 & t2 & Hload & Hbody).
    unfold load in Hload. destruct (heap t !! theta) as [th1'|]; [|done].
    injection Hload as Hl1 Hl2. subst th1' t2.
    apply bind_ok in Hbody as (dst & t3 & Hload & Hbody).
    unfold load in Hload. rewrite Hg in Hload.
    injection Hload as Hl1 Hl2. subst dst t3.
    apply bind_ok in Hbody as (new & t4 & Hassign & Hbody).
    apply lift_ok in Hassign as [Hassign ->].
    apply assign_slice_ok in Hassign as [_ Hnew].
    unfold store in Hbody. injection Hbody as <-.
    split; [|by rewrite Hf]. exists new. cbn [heap].
    rewrite lookup_insert_eq. split; [done|congruence].
  - exists (zeros_like th). cbn [heap]. rewrite lookup_insert_eq.
    split; [done|]. unfold zeros_like, zeros. by rewrite length_replicate.
Qed.

Lemma lnp_prior_grad_returns_witness :
  Forall (λ pv, is_Some (prior_gradient_function pv.2)) blocks_AB
  ∧ (2%positive ∉ dom (heap (start_state blocks_AB [q 1 2; q 1 2; q 0 1])))
  ∧ ∃ th g, heap (start_state blocks_AB [q 1 2; q 1 2; q 0 1]) !! 1%positive = Some th
      ∧ heap (with_heap (start_state blocks_AB [q 1 2; q 1 2; q 0 1])
                (<[2%positive := [q (-1) 2; q (-1) 2; q 0 1]]>
                   (heap (start_state blocks_AB [q 1 2; q 1 2; q 0 1]))))
          !! 2%positive = Some g
      ∧ length g = length th.
Proof.
  apply (lnp_prior_grad_returns 1%positive (start_state blocks_AB [q 1 2; q 1 2; q 0 1])).
  vm_compute. reflexivity.
Defined.
